(** * novel_analyzer: chapter splitting, model-API retry loop, character
      merging and report rendering

    A shallow embedding of [src/novel_analyzer.py] (class [NovelAnalyzer])
    together with the properties stated about it.

    Conventions of the embedding.
    - A Python [str] is a sequence of Unicode code points: [list N].  [len]
      is [length], a slice [s[a:b]] is [take (b - a) (drop a s)].
    - Literals of the source are written as UTF-8 text and decoded to code
      points by [u], so that they can be compared with the source by eye.
    - A Python [dict] with string keys and string values is a
      [gmap (list N) (list N)]; the insertion-ordered mapping built by
      [merge_character_data] is an association list with distinct keys.
    - Logging calls ([self.logger...]) and the debug transcript do not affect
      any returned value and are left out; the two effects that the claims
      speak about, the HTTP request and [time.sleep], are recorded in an
      explicit event trace. *)

From Stdlib Require Import String Ascii.
From stdpp Require Import gmap list pretty.

Set Warnings "-register-all".

Local Open Scope nat_scope.

(** ** Python strings *)

Module PyStr.

(** The bytes of a literal. *)
Definition bytes_of (s : string) : list N :=
  N_of_ascii <$> list_ascii_of_string s.

(** UTF-8 decoding, [acc] holding the bits read so far of a code point of
    which [need] continuation bytes are still missing. *)
Fixpoint utf8 (acc : N) (need : nat) (bs : list N) : list N :=
  match bs with
  | [] => []
  | b :: bs' =>
      match need with
      | 0 =>
          if (b <? 128)%N then b :: utf8 0%N 0 bs'
          else if (b <? 224)%N then utf8 (b `mod` 32)%N 1 bs'
          else if (b <? 240)%N then utf8 (b `mod` 16)%N 2 bs'
          else utf8 (b `mod` 8)%N 3 bs'
      | 1 => (acc * 64 + b `mod` 64)%N :: utf8 0%N 0 bs'
      | S n => utf8 (acc * 64 + b `mod` 64)%N n bs'
      end
  end.

(** [u "..."] is the Python string written [...] in the source. *)
Definition u (s : string) : list N := utf8 0%N 0 (bytes_of s).

Definition NL : N := 10%N.

(** [str.isspace] on one character, which is also what [\s] matches in a
    [str] pattern: CPython's table of Unicode white space. *)
Definition isspace (c : N) : bool :=
  ((9 <=? c) && (c <=? 13) || (28 <=? c) && (c <=? 32)
   || (c =? 133) || (c =? 160) || (c =? 5760)
   || (8192 <=? c) && (c <=? 8202)
   || (c =? 8232) || (c =? 8233) || (c =? 8239) || (c =? 8287)
   || (c =? 12288))%N.

(** [s.lstrip()], [s.rstrip()] and [s.strip()]. *)
Fixpoint lstrip (s : list N) : list N :=
  match s with
  | c :: s' => if isspace c then lstrip s' else s
  | [] => []
  end.

Definition rstrip (s : list N) : list N := reverse (lstrip (reverse s)).

Definition strip (s : list N) : list N := rstrip (lstrip s).

(** [s[a:b]] for [0 <= a], [0 <= b]. *)
Definition slice (s : list N) (a b : nat) : list N := take (b - a) (drop a s).

(** [sep.join(l)]. *)
Fixpoint join (sep : list N) (l : list (list N)) : list N :=
  match l with
  | [] => []
  | [x] => x
  | x :: l' => x ++ sep ++ join sep l'
  end.

(** [str(z)] for an [int]. *)
Definition str_of_Z (z : Z) : list N := bytes_of (pretty z).

(** [needle in hay] for two strings. *)
Fixpoint is_prefix (p s : list N) : bool :=
  match p, s with
  | [], _ => true
  | a :: p', b :: s' => (a =? b)%N && is_prefix p' s'
  | _ :: _, [] => false
  end.

Fixpoint is_substring (p s : list N) : bool :=
  is_prefix p s || match s with [] => false | _ :: s' => is_substring p s' end.

End PyStr.
Import PyStr.

(** ** The subset of [re] that the heading pattern uses *)

Module Re.

(** One member of a bracketed character set. *)
Inductive citem :=
| CChar (c : N)
| CRange (lo hi : N).

Definition citem_ok (i : citem) (c : N) : bool :=
  match i with
  | CChar x => (c =? x)%N
  | CRange lo hi => ((lo <=? c) && (c <=? hi))%N
  end.

(** Something that matches exactly one character. *)
Inductive atom :=
| Lit (c : N)                 (* a literal character *)
| InSet (items : list citem)  (* [...] *)
| NotInSet (items : list citem) (* [^...] *)
| Space.                      (* \s *)

Definition atom_ok (a : atom) (c : N) : bool :=
  match a with
  | Lit x => (c =? x)%N
  | InSet items => existsb (fun i => citem_ok i c) items
  | NotInSet items => negb (existsb (fun i => citem_ok i c) items)
  | Space => isspace c
  end.

(** A pattern is a sequence of atoms, each taken once or under a greedy [+]. *)
Inductive node :=
| One (a : atom)
| Plus (a : atom).

(** Greedy repetition with backtracking: take one more character when the
    rest of the match then succeeds, otherwise stop here.  The result is
    the number of characters matched from here on. *)
Fixpoint star (a : atom) (k : list N → option nat) (s : list N) : option nat :=
  match s with
  | c :: s' =>
      if atom_ok a c then
        match star a k s' with
        | Some n => Some (S n)
        | None => k s
        end
      else k s
  | [] => k []
  end.

(** [pattern.match] anchored at the head of [s]: the length of the match. *)
Fixpoint match_here (r : list node) (s : list N) : option nat :=
  match r with
  | [] => Some 0
  | One a :: r' =>
      match s with
      | c :: s' => if atom_ok a c then S <$> match_here r' s' else None
      | [] => None
      end
  | Plus a :: r' =>
      match s with
      | c :: s' => if atom_ok a c then S <$> star a (match_here r') s' else None
      | [] => None
      end
  end.

(** [pattern.finditer]: the spans [(start, end)] of the leftmost
    non-overlapping matches.  [skip] counts the characters of the current
    match still to be stepped over; [pos] is the index of the head of [s]. *)
Fixpoint scan (r : list node) (skip pos : nat) (s : list N) : list (nat * nat) :=
  match s with
  | [] => []
  | _ :: s' =>
      match skip with
      | S k => scan r k (S pos) s'
      | 0 =>
          match match_here r s with
          | Some n => (pos, pos + n) :: scan r (pred n) (S pos) s'
          | None => scan r 0 (S pos) s'
          end
      end
  end.

Definition finditer (r : list node) (s : list N) : list (nat * nat) :=
  scan r 0 0 s.

(** When what follows a [+] cannot start with a character of the repeated
    set, backtracking never helps: the repetition takes the whole run. *)
Definition exclusive (a : atom) (k : list N → option nat) : Prop :=
  ∀ c t, atom_ok a c = true → k (c :: t) = None.

End Re.
Import Re.

(** ** [split_into_chapters] *)

Record Chapter := mkChapter { title : list N; content : list N }.

(** [r'(第[0-9零一二三四五六七八九十百千万]+章\s[^\n]+)\n'] *)
Definition NUMERALS : list citem :=
  CRange 48 57 :: (CChar <$> u "零一二三四五六七八九十百千万").

Definition DI : N := Eval vm_compute in default 0%N (head (u "第")).
Definition ZHANG : N := Eval vm_compute in default 0%N (head (u "章")).

Definition pattern : list node :=
  [One (Lit DI); Plus (InSet NUMERALS); One (Lit ZHANG); One Space;
   Plus (NotInSet [CChar NL]); One (Lit NL)].

Definition is_numeral (c : N) : bool := atom_ok (InSet NUMERALS) c.
Definition not_newline (c : N) : bool := atom_ok (NotInSet [CChar NL]) c.

(** The shape of a heading in words: [第], one or more numerals, [章], one
    white-space character, one or more characters other than a newline, and
    a newline; [n] characters in all at the head of [s]. *)
Definition heading_shape (s : list N) (n : nat) : Prop :=
  ∃ nums w body,
    take n s = DI :: nums ++ ZHANG :: w :: body ++ [NL]
    ∧ n = length nums + length body + 4
    ∧ nums ≠ [] ∧ Forall (λ c, is_numeral c = true) nums
    ∧ isspace w = true
    ∧ body ≠ [] ∧ Forall (λ c, not_newline c = true) body.

(** Group 1 of the pattern is the whole match without its final newline. *)
Definition group1 (text : list N) (m : nat * nat) : list N :=
  slice text m.1 (pred m.2).

Definition SENTINEL : list N := u "全文".

(** The loop over [enumerate(matches)]: [rest] is [matches[i+1:]]. *)
Fixpoint chapters_of (text : list N) (matches : list (nat * nat)) : list Chapter :=
  match matches with
  | [] => []
  | m :: rest =>
      let end_pos := match rest with m' :: _ => m'.1 | [] => length text end in
      mkChapter (strip (group1 text m)) (strip (slice text m.2 end_pos))
        :: chapters_of text rest
  end.

(** No statement of the [try] block raises on a [str], so the [except]
    branch, which returns [[]], is not reached. *)
Definition split_into_chapters (text : list N) : list Chapter :=
  let matches := finditer pattern text in
  match matches with
  | [] => [mkChapter SENTINEL text]
  | _ => chapters_of text matches
  end.

(** The documents of [test_analyzer.py]. *)
Definition test_normal_case : list N := u "
        第1章 万药联盟的诞生
        这是第一章的内容。
        第2章 万药联盟的崛起
        这是第二章的内容。
        ".

Definition test_incorrect_titles : list N := u "
        第1章 万药联盟的诞生
        这是第一章的内容。
        这是第二章的内容。
        ".

Definition test_no_titles : list N := u "
        这是第一章的内容。
        这是第二章的内容。
        ".

(** A text whose last line has the shape of a heading and no newline. *)
Definition test_last_line : list N := u "第1章 a
body
第2章 b".

(** ** [_call_model_api] *)

Module Api.

(** A parsed JSON value, as [response.json()] returns it.  An object is
    kept as the list of its members; [obj_get] reads a key. *)
Inductive json :=
| JNull
| JBool (b : bool)
| JNum (z : Z)
| JStr (s : list N)
| JArr (l : list json)
| JObj (members : list (list N * json)).

Fixpoint obj_get (k : list N) (members : list (list N * json)) : option json :=
  match members with
  | [] => None
  | (k', v) :: rest => if bool_decide (k' = k) then Some v else obj_get k rest
  end.

(** What the service does with one request. *)
Inductive reply :=
| Timeout                                  (* requests.exceptions.Timeout *)
| Failure                                  (* any other exception *)
| Response (status_code : Z) (body : option json).
    (* [body = None]: [response.json()] raises [JSONDecodeError] *)

(** ['content' in v]: a key of a dict, a substring of a string, an element
    of a list; [None] is the [TypeError] of the other values. *)
Definition has_content (v : json) : option bool :=
  match v with
  | JObj members => Some (bool_decide (is_Some (obj_get (u "content") members)))
  | JStr s => Some (is_substring (u "content") s)
  | JArr l => Some (existsb (fun x => match x with
                                      | JStr s => bool_decide (s = u "content")
                                      | _ => false
                                      end) l)
  | JNull | JBool _ | JNum _ => None
  end.

(** How one iteration of the loop ends. *)
Inductive verdict :=
| Return (data : json)   (* [return data] *)
| Continue               (* [continue] without sleeping *)
| TimedOut               (* the [except Timeout] branch *)
| Break.                 (* the [except Exception] branch: [break] *)

Definition judge (r : reply) : verdict :=
  match r with
  | Timeout => TimedOut
  | Failure => Break
  | Response status_code body =>
      if bool_decide (status_code ≠ 200%Z) then Continue
      else
        match body with
        | None => Continue
        | Some (JObj members) =>
            match obj_get (u "message") members with
            | None => Continue
            | Some message =>
                match has_content message with
                | None => Break
                | Some false => Continue
                | Some true => Return (JObj members)
                end
            end
        | Some _ => Continue
        end
  end.

Inductive event :=
| Post (attempt : nat)   (* [requests.post], 0-based attempt number *)
| Sleep (seconds : Z).   (* [time.sleep] *)

(** How a call ends: with [return], or with the [ValueError] that
    [time.sleep] raises for a negative delay.  That exception is raised
    inside the handler of the timeout, where no [except] clause of the
    [try] statement catches it, so it leaves the function. *)
Inductive outcome :=
| Returned (r : option json)
| Raised.

Section Call.
(** [server i] is the outcome of the request of attempt [i]. *)
Variable server : nat → reply.
Variable max_retries : nat.
Variable retry_delay : Z.

(** The iterations [attempt, attempt + 1, ...] of
    [for attempt in range(self.max_retries)], [n] of them left.  [Sleep]
    records the call of [time.sleep], also the one that raises. *)
Fixpoint attempts (attempt n : nat) : outcome * list event :=
  match n with
  | 0 => (Returned None, [])
  | S n' =>
      match judge (server attempt) with
      | Return data => (Returned (Some data), [Post attempt])
      | Continue =>
          let '(r, t) := attempts (S attempt) n' in (r, Post attempt :: t)
      | TimedOut =>
          if bool_decide (attempt < max_retries - 1) then
            if bool_decide (retry_delay < 0)%Z
            then (Raised, [Post attempt; Sleep retry_delay])
            else
              let '(r, t) := attempts (S attempt) n' in
              (r, Post attempt :: Sleep retry_delay :: t)
          else
            let '(r, t) := attempts (S attempt) n' in (r, Post attempt :: t)
      | Break => (Returned None, [Post attempt])
      end
  end.

Definition call_model_api : outcome * list event :=
  attempts 0 max_retries.
End Call.

(** The failures of an attempt other than an exception, in words: a
    status other than 200, a body that is not JSON, a body that is not an
    object, an object without ['message'], a message without ['content']. *)
Inductive soft_failure : reply → Prop :=
| sf_status status_code body :
    status_code ≠ 200%Z → soft_failure (Response status_code body)
| sf_malformed : soft_failure (Response 200 None)
| sf_not_dict v :
    (∀ members, v ≠ JObj members) → soft_failure (Response 200 (Some v))
| sf_no_message members :
    obj_get (u "message") members = None →
    soft_failure (Response 200 (Some (JObj members)))
| sf_no_content members message :
    obj_get (u "message") members = Some message →
    has_content message = Some false →
    soft_failure (Response 200 (Some (JObj members))).

(** The settings of [__init__]. *)
Definition MAX_RETRIES : nat := 3.
Definition RETRY_DELAY : Z := 30.


(** Services for the examples. *)
Definition ok_body : json :=
  JObj [(u "message", JObj [(u "content", JStr (u "{}"))])].

Definition server_500_then_ok (i : nat) : reply :=
  match i with
  | 0 => Response 500 None
  | _ => Response 200 (Some ok_body)
  end.



End Api.

(** ** [merge_character_data] *)

(** The merged dict of one character: [fields] are the keys copied from the
    first record ([**char]); the two computed keys ['appearances'] and
    ['chapters'], which replace keys of those names in the record, are kept
    apart with their own types. *)
Record Merged := mkMerged {
  fields : gmap (list N) (list N);
  appearances : Z;
  chapters : list (list N)
}.

(** An insertion-ordered [dict]: lookup, update of a present key (which
    keeps its place), and a new key going last. *)
Module OD.
Section OD.
Context {V : Type}.

Fixpoint lookup (k : list N) (d : list (list N * V)) : option V :=
  match d with
  | [] => None
  | (k', v) :: d' => if bool_decide (k' = k) then Some v else lookup k d'
  end.

Fixpoint alter (f : V → V) (k : list N) (d : list (list N * V)) : list (list N * V) :=
  match d with
  | [] => []
  | (k', v) :: d' =>
      if bool_decide (k' = k) then (k', f v) :: d' else (k', v) :: alter f k d'
  end.

Definition keys (d : list (list N * V)) : list (list N) := fst <$> d.
End OD.
End OD.

Definition FIELDS : list (list N) :=
  [u "appearance"; u "personality"; u "relationships"; u "significance"].

(** [char.get('first_appearance', '')] *)
Definition first_appearance (char : gmap (list N) (list N)) : list N :=
  default [] (char !! u "first_appearance").

(** [{**char, 'appearances': 1, 'chapters': [char.get('first_appearance', '')]}] *)
Definition seed (char : gmap (list N) (list N)) : Merged :=
  {| fields := delete (u "chapters") (delete (u "appearances") char);
     appearances := 1;
     chapters := [first_appearance char] |}.

(** What [merge_field] below leaves under one key, as a function of the
    incoming and the stored value of that key ([None]: the key is missing). *)
Definition pick (incoming stored : option (list N)) : option (list N) :=
  match incoming with
  | Some v =>
      if bool_decide (v ≠ [])
         && (bool_decide (stored = None)
             || bool_decide (length (default [] stored) < length v))
      then Some v
      else stored
  | None => stored
  end.

(** In words: the incoming value is present, not empty and strictly longer
    than the stored one, a missing stored value counting as empty. *)
Definition more_detailed (incoming stored : option (list N)) : Prop :=
  ∃ v, incoming = Some v ∧ v ≠ [] ∧ length (default [] stored) < length v.

(** The body of [for field in [...]] on the stored fields [stored]. *)
Definition merge_field (char stored : gmap (list N) (list N)) (field : list N)
  : gmap (list N) (list N) :=
  match char !! field with
  | Some v =>
      if bool_decide (v ≠ [])
         && (bool_decide (stored !! field = None)
             || bool_decide (length (default [] (stored !! field)) < length v))
      then <[field := v]> stored
      else stored
  | None => stored
  end.

(** The [else] branch: a further record of a name already seen. *)
Definition absorb (char : gmap (list N) (list N)) (m : Merged) : Merged :=
  {| fields := foldl (merge_field char) (fields m) FIELDS;
     appearances := appearances m + 1;
     chapters := chapters m ++ [first_appearance char] |}.

(** The body of [for char in characters]. *)
Definition merge_record (merged : list (list N * Merged))
    (char : gmap (list N) (list N)) : list (list N * Merged) :=
  match char !! u "name" with
  | None => merged
  | Some name =>
      if bool_decide (name = []) then merged
      else
        match OD.lookup name merged with
        | None => merged ++ [(name, seed char)]
        | Some _ => OD.alter (absorb char) name merged
        end
  end.

(** The name under which a record is merged: [None] when the key is missing
    or its value is empty, the records that [if not name: continue] skips. *)
Definition name_of (char : gmap (list N) (list N)) : option (list N) :=
  match char !! u "name" with
  | Some name => if bool_decide (name = []) then None else Some name
  | None => None
  end.

Definition merge_character_data
    (characters_list : list (list (gmap (list N) (list N))))
  : list (list N * Merged) :=
  foldl (fun merged characters => foldl merge_record merged characters)
    [] characters_list.

(** ** [generate_final_report] *)

Definition NO_RECORD : list N := u "无记录".

(** The f-string that [report] starts with. *)
Definition header (n_chapters : nat) (failed : Z) (n_characters : nat) : list N :=
  u "=== 小说角色分析报告 ===

【统计信息】
总章节数: " ++ str_of_Z (Z.of_nat n_chapters) ++ u "
成功分析: " ++ str_of_Z (Z.of_nat n_chapters - failed) ++ u "
失败章节: " ++ str_of_Z failed ++ u "
发现角色: " ++ str_of_Z (Z.of_nat n_characters) ++ u "

【角色详细信息】
".

(** [data.get(field, '无记录')] *)
Definition shown (data : Merged) (field : list N) : list N :=
  default NO_RECORD (fields data !! field).

(** The f-string of one character.  A record built by
    [merge_character_data] always has ['appearances'] and ['chapters'], so
    the defaults of [data.get('appearances', 1)] and
    [data.get('chapters', [])] are not used. *)
Definition section (name : list N) (data : Merged) : list N :=
  u "
■ 角色名称: " ++ name ++ u "
    ▸ 出现次数: " ++ str_of_Z (appearances data) ++ u "
    ▸ 出现章节: " ++ join (u ", ") (chapters data) ++ u "
    ▸ 外貌特征: " ++ shown data (u "appearance") ++ u "
    ▸ 性格特点: " ++ shown data (u "personality") ++ u "
    ▸ 人物关系: " ++ shown data (u "relationships") ++ u "
    ▸ 角色重要性: " ++ shown data (u "significance") ++ u "
".

(** ["━" * 60 + "\n"] *)
Definition RULE : list N := mjoin (replicate 60 (u "━")) ++ [NL].

Definition generate_final_report (chaps : list Chapter)
    (characters : list (list N * Merged)) (failed : Z) : list N :=
  foldl (fun report '(name, data) => (report ++ section name data) ++ RULE)
    (header (length chaps) failed (length characters)) characters.

(** *** The report, as the specification words it *)

(** A line [label: value]. *)
Definition labelled (label value : list N) : list N :=
  label ++ u ": " ++ value ++ [NL].

(** A detail line of a character section. *)
Definition detail (label value : list N) : list N :=
  u "    ▸ " ++ labelled label value.

(** The statistics block: chapter count, success count, failure count,
    character count. *)
Definition spec_statistics (chaps : list Chapter)
    (characters : list (list N * Merged)) (failed : Z) : list N :=
  u "【统计信息】" ++ [NL]
  ++ labelled (u "总章节数") (str_of_Z (Z.of_nat (length chaps)))
  ++ labelled (u "成功分析") (str_of_Z (Z.of_nat (length chaps) - failed))
  ++ labelled (u "失败章节") (str_of_Z failed)
  ++ labelled (u "发现角色") (str_of_Z (Z.of_nat (length characters))).

(** A descriptive field: its value, or the placeholder when the key is
    absent from the record. *)
Definition spec_field (data : Merged) (key : list N) : list N :=
  match fields data !! key with
  | Some value => value
  | None => u "无记录"
  end.

(** The section of one character. *)
Definition spec_section (name : list N) (data : Merged) : list N :=
  [NL]
  ++ u "■ " ++ labelled (u "角色名称") name
  ++ detail (u "出现次数") (str_of_Z (appearances data))
  ++ detail (u "出现章节") (join (u ", ") (chapters data))
  ++ detail (u "外貌特征") (spec_field data (u "appearance"))
  ++ detail (u "性格特点") (spec_field data (u "personality"))
  ++ detail (u "人物关系") (spec_field data (u "relationships"))
  ++ detail (u "角色重要性") (spec_field data (u "significance")).

(** The rule line that closes a section: sixty [━] and a newline. *)
Definition spec_rule : list N := replicate 60 9473%N ++ [NL].

Definition spec_report (chaps : list Chapter)
    (characters : list (list N * Merged)) (failed : Z) : list N :=
  u "=== 小说角色分析报告 ===" ++ [NL; NL]
  ++ spec_statistics chaps characters failed
  ++ [NL] ++ u "【角色详细信息】" ++ [NL]
  ++ mjoin ((λ '(name, data), spec_section name data ++ spec_rule) <$> characters).

(** Records for the examples, written as lists of keys and values. *)
Definition rec (l : list (string * string)) : gmap (list N) (list N) :=
  list_to_map ((λ '(k, v), (u k, u v)) <$> l).

(** Reading a decimal numeral back, as [int(s)] does: the value of a run of
    digits, and of a numeral with an optional minus sign. *)
Definition digits_value (acc : N) (digits : list N) : N :=
  foldl (λ acc c, 10 * acc + (c - 48))%N acc digits.

Definition int_of_str (s : list N) : Z :=
  match s with
  | c :: digits =>
      if (c =? 45)%N then - Z.of_N (digits_value 0 digits)
      else Z.of_N (digits_value 0 s)
  | [] => 0
  end.

(** Three chapters and the mapping of one character for the examples. *)
Definition report_chapters : list Chapter :=
  [mkChapter (u "第1章 相遇") (u "一");
   mkChapter (u "第2章 重逢") (u "二");
   mkChapter (u "第3章 离别") (u "三")].

Definition report_characters : list (list N * Merged) :=
  [(u "张三",
    mkMerged (rec [("name", "张三"); ("personality", "勇敢");
                   ("significance", "主角")])
      2 [u "第1章"; u "第2章"])].

(** The elements of a list in the order of their first occurrences. *)
Fixpoint first_seen (l : list (list N)) : list (list N) :=
  match l with
  | [] => []
  | x :: l' => x :: filter (λ y, y ≠ x) (first_seen l')
  end.

Definition rec_xy : gmap (list N) (list N) :=
  rec [("name", "a"); ("personality", "xy")].
Definition rec_xyz : gmap (list N) (list N) :=
  rec [("name", "a"); ("personality", "xyz")].
Definition rec_b : gmap (list N) (list N) :=
  rec [("name", "b"); ("first_appearance", "ch1")].

(** ** [extract_character_info] *)

(** A literal between double quotes. *)
Definition dq (s : string) : list N := [34%N] ++ u s ++ [34%N].

(** One line of the record of the template, without what ends the line. *)
Definition template_field (key value : string) : list N :=
  u "            " ++ dq key ++ u ": " ++ dq value.

(** The f-string of the prompt up to the text of the chapter. *)
Definition PROMPT_HEAD : list N :=
  u "请从以下小说内容提取角色信息，严格按JSON格式返回：
{
    " ++ dq "characters" ++ u ": [
        {
" ++ template_field "name" "角色全名" ++ u ",
" ++ template_field "appearance" "外貌特征" ++ u ",
" ++ template_field "personality" "性格特点" ++ u ",
" ++ template_field "relationships" "人物关系" ++ u ",
" ++ template_field "first_appearance" "首次出现场景" ++ u ",
" ++ template_field "significance" "角色重要性" ++ u "
        }
    ]
}

内容要求：
1. 必须使用简体中文
2. 性格特点需详细描述
3. 人物关系需说明与其他角色的互动

小说内容：
".

(** The setting of [__init__]. *)
Definition MAX_TEXT_LENGTH : nat := 5000.

(** [bool(v)] of a parsed JSON value. *)
Definition truthy (v : Api.json) : bool :=
  match v with
  | Api.JNull => false
  | Api.JBool b => b
  | Api.JNum z => negb (z =? 0)%Z
  | Api.JStr s => negb (bool_decide (s = []))
  | Api.JArr l => match l with [] => false | _ :: _ => true end
  | Api.JObj members => match members with [] => false | _ :: _ => true end
  end.

(** [response['message']['content']]; [None] when a subscript raises: a
    missing key, or a ['message'] that is a string, a list or a scalar. *)
Definition message_content (response : Api.json) : option Api.json :=
  match response with
  | Api.JObj members =>
      match Api.obj_get (u "message") members with
      | Some (Api.JObj message) => Api.obj_get (u "content") message
      | _ => None
      end
  | _ => None
  end.

Section Extract.
(** [server prompt i] is the outcome of attempt [i] of the call made with
    [prompt]; [loads] is [json.loads], [None] when it raises. *)
Variable server : list N → nat → Api.reply.
Variable loads : list N → option Api.json.
Variable max_retries : nat.
Variable retry_delay : Z.
Variable max_text_length : nat.

Definition prompt_of (text : list N) : list N :=
  PROMPT_HEAD ++ take max_text_length text.

(** The [try] block on the response: [json.loads] raises on a content that
    is not a string; a value [null] under ['characters'] is Python's [None],
    which the caller cannot tell from a failure. *)
Definition parse_characters (response : Api.json) : option Api.json :=
  match message_content response with
  | Some (Api.JStr content) =>
      match loads content with
      | Some (Api.JObj data) =>
          match Api.obj_get (u "characters") data with
          | Some Api.JNull => None
          | Some characters => Some characters
          | None => None
          end
      | _ => None
      end
  | _ => None
  end.

(** The value returned, or the exception of the call that leaves this
    function too, and the requests and sleeps of the call. *)
Definition extract_character_info (text : list N)
  : Api.outcome * list Api.event :=
  let call := Api.call_model_api (server (prompt_of text)) max_retries retry_delay in
  (match call.1 with
   | Api.Raised => Api.Raised
   | Api.Returned None => Api.Returned None
   | Api.Returned (Some response) =>
       if negb (truthy response) then Api.Returned None
       else Api.Returned (parse_characters response)
   end, call.2).
End Extract.

(** ** [process_novel] *)

Section Process.
(** [extract content] is the value that [extract_character_info] returns
    on a chapter content, read at its declared type: [None], or a list of
    records.  The run is modelled for extractions that return, as they all
    do when the delay between attempts is not negative. *)
Variable extract : list N → option (list (gmap (list N) (list N))).

(** The loop over the chapters: [all_characters] and [failed_chapters]. *)
Definition analyse_step
    (state : list (list (gmap (list N) (list N))) * Z) (chapter : Chapter)
  : list (list (gmap (list N) (list N))) * Z :=
  match extract (content chapter) with
  | Some (c :: cs) => (state.1 ++ [c :: cs], state.2)
  | Some [] | None => (state.1, (state.2 + 1)%Z)
  end.

Definition analyse (chaps : list Chapter)
  : list (list (gmap (list N) (list N))) * Z :=
  foldl analyse_step ([], 0%Z) chaps.

End Process.

(** What a chapter adds to [all_characters]: its records, when the
    extraction returned at least one. *)
Definition usable (extract : list N → option (list (gmap (list N) (list N))))
    (chapter : Chapter) : option (list (gmap (list N) (list N))) :=
  match extract (content chapter) with
  | Some (c :: cs) => Some (c :: cs)
  | Some [] | None => None
  end.

(** A response from which the extraction gets [characters], in words: an
    object whose ['message'] is an object whose ['content'] is a string that
    [json.loads] turns into an object with a ['characters'] other than
    [null]. *)
Definition usable_response (loads : list N → option Api.json)
    (response characters : Api.json) : Prop :=
  ∃ members message content data,
    response = Api.JObj members
    ∧ Api.obj_get (u "message") members = Some (Api.JObj message)
    ∧ Api.obj_get (u "content") message = Some (Api.JStr content)
    ∧ loads content = Some (Api.JObj data)
    ∧ Api.obj_get (u "characters") data = Some characters
    ∧ characters ≠ Api.JNull.

(** A [json.loads] and an extraction for the examples. *)
Definition loads_demo (content : list N) : option Api.json :=
  Some (Api.JObj [(u "characters", Api.JArr [Api.JObj []])]).


(** The sum of the [appearances] of all entries of a mapping. *)
Definition total_appearances (merged : list (list N * Merged)) : Z :=
  foldr Z.add 0%Z ((λ e, appearances e.2) <$> merged).

(** The records of the name [n] among the records of all chapters, in the
    order of the scan. *)
Definition records_named (n : list N)
    (cl : list (list (gmap (list N) (list N)))) : list (gmap (list N) (list N)) :=
  filter (λ c, name_of c = Some n) (concat cl).

(** The number of requests of a trace, and the seconds slept in it. *)
Fixpoint requests (t : list Api.event) : nat :=
  match t with
  | [] => 0
  | Api.Post _ :: t' => S (requests t')
  | Api.Sleep _ :: t' => requests t'
  end.


Fixpoint slept (t : list Api.event) : Z :=
  match t with
  | [] => 0
  | Api.Post _ :: t' => slept t'
  | Api.Sleep seconds :: t' => seconds + slept t'
  end.

(** A response that [_call_model_api] returns, in words: an object with a
    ['message'] in which ['content'] is found. *)
Definition accepted (data : Api.json) : Prop :=
  ∃ members message,
    data = Api.JObj members
    ∧ Api.obj_get (u "message") members = Some message
    ∧ Api.has_content message = Some true.

(** * Properties *)

(** Case analysis on every [bool_decide] of the goal. *)
Ltac decide_all :=
  repeat match goal with
    | |- context [bool_decide ?P] =>
        destruct (decide P);
        [rewrite !(bool_decide_eq_true_2 P) by done
        |rewrite !(bool_decide_eq_false_2 P) by done]; simpl
    end; simplify_eq; try done.

(** Closes a decidable goal by evaluation. *)
Ltac compute_dec := apply (bool_decide_unpack _); vm_compute; reflexivity.

(** ** The matcher *)

(** A match never runs past the end of the text. *)
Lemma star_le a k s n :
  (∀ t m, k t = Some m → m ≤ length t) →
  star a k s = Some n → n ≤ length s.
Proof.
  intros Hk. revert n. induction s as [|c s IH]; intros n; simpl.
  - intros H. by apply Hk in H.
  - destruct (atom_ok a c).
    + destruct (star a k s) as [m|] eqn:E.
      * intros [= <-]. specialize (IH _ eq_refl). lia.
      * intros H. by apply Hk in H.
    + intros H. by apply Hk in H.
Qed.

Lemma match_here_le r : ∀ s n, match_here r s = Some n → n ≤ length s.
Proof.
  induction r as [|[a|a] r IH]; intros [|c s] n; simpl; try done.
  - intros [= <-]. lia.
  - intros [= <-]. lia.
  - destruct (atom_ok a c); [|done].
    destruct (match_here r s) as [m|] eqn:E; simpl; [|done].
    intros [= <-]. apply IH in E. lia.
  - destruct (atom_ok a c); [|done].
    destruct (star a (match_here r) s) as [m|] eqn:E; simpl; [|done].
    intros [= <-]. apply star_le in E; [lia | exact IH].
Qed.

Lemma star_spec a k s n :
  exclusive a k →
  star a k s = Some n ↔
  ∃ xs t m, s = xs ++ t ∧ Forall (λ c, atom_ok a c = true) xs
            ∧ k t = Some m ∧ n = length xs + m.
Proof.
  intros Hex. split.
  - revert n. induction s as [|c s IH]; intros n; simpl.
    + intros H. exists [], [], n. by repeat split.
    + destruct (atom_ok a c) eqn:Hc.
      * destruct (star a k s) as [m|] eqn:E.
        -- intros [= <-].
           destruct (IH _ eq_refl) as (xs & t & m' & -> & Hxs & Hk & ->).
           exists (c :: xs), t, m'. repeat split; auto.
        -- by rewrite (Hex _ _ Hc).
      * intros H. exists [], (c :: s), n. by repeat split.
  - intros (xs & t & m & -> & Hxs & Hk & ->).
    induction Hxs as [|c xs Hc _ IH]; simpl.
    + destruct t as [|c t]; simpl; [done|].
      destruct (atom_ok a c) eqn:Hc; [|done].
      by rewrite (Hex _ _ Hc) in Hk.
    + by rewrite Hc, IH.
Qed.

Lemma nil_spec s n : match_here [] s = Some n ↔ n = 0.
Proof. simpl. split; [by intros [= <-] | by intros ->]. Qed.

Lemma one_spec a r s n :
  match_here (One a :: r) s = Some n ↔
  ∃ c t m, s = c :: t ∧ atom_ok a c = true ∧ match_here r t = Some m ∧ n = S m.
Proof.
  split.
  - destruct s as [|c t]; simpl; [done|].
    destruct (atom_ok a c) eqn:Hc; [|done].
    intros (m & Hm & ->)%fmap_Some. by exists c, t, m.
  - intros (c & t & m & -> & Hc & Hm & ->). simpl. by rewrite Hc, Hm.
Qed.

Lemma plus_spec a r s n :
  exclusive a (match_here r) →
  match_here (Plus a :: r) s = Some n ↔
  ∃ xs t m, s = xs ++ t ∧ xs ≠ [] ∧ Forall (λ c, atom_ok a c = true) xs
            ∧ match_here r t = Some m ∧ n = length xs + m.
Proof.
  intros Hex. split.
  - destruct s as [|c s]; simpl; [done|].
    destruct (atom_ok a c) eqn:Hc; [|done].
    intros (n' & Hn' & ->)%fmap_Some.
    apply star_spec in Hn' as (xs & t & m & -> & Hxs & Hm & ->); [|done].
    exists (c :: xs), t, m. repeat split; auto.
  - intros (xs & t & m & -> & Hne & Hxs & Hm & ->).
    destruct Hxs as [|c xs Hc Hxs]; [done|]. simpl. rewrite Hc.
    assert (star a (match_here r) (xs ++ t) = Some (length xs + m)) as ->; [|done].
    apply star_spec; [done|]. by exists xs, t, m.
Qed.

Lemma exclusive_one a b r :
  (∀ c, atom_ok a c = true → atom_ok b c = false) →
  exclusive a (match_here (One b :: r)).
Proof. intros H c t Hc. simpl. by rewrite (H _ Hc). Qed.

(** ** The heading pattern *)

Lemma not_newline_spec c : not_newline c = true ↔ c ≠ NL.
Proof.
  unfold not_newline. simpl. rewrite orb_false_r, negb_true_iff.
  rewrite N.eqb_neq. done.
Qed.

Lemma numeral_not_zhang c : is_numeral c = true → c ≠ ZHANG.
Proof. intros H ->. vm_compute in H. done. Qed.

Lemma match_here_pattern_split s n :
  match_here pattern s = Some n ↔
  ∃ nums w body rest,
    s = DI :: nums ++ ZHANG :: w :: body ++ NL :: rest
    ∧ n = length nums + length body + 4
    ∧ nums ≠ [] ∧ Forall (λ c, is_numeral c = true) nums
    ∧ isspace w = true
    ∧ body ≠ [] ∧ Forall (λ c, not_newline c = true) body.
Proof.
  assert (exclusive (InSet NUMERALS)
            (match_here [One (Lit ZHANG); One Space; Plus (NotInSet [CChar NL]);
                         One (Lit NL)])) as Hex1.
  { apply exclusive_one. intros c Hc. simpl. apply N.eqb_neq.
    by apply numeral_not_zhang. }
  assert (exclusive (NotInSet [CChar NL]) (match_here [One (Lit NL)])) as Hex2.
  { apply exclusive_one. intros c Hc. simpl. apply N.eqb_neq.
    by apply not_newline_spec. }
  unfold pattern. split.
  - intros (c1 & t1 & m1 & -> & ->%N.eqb_eq & H & ->)%one_spec.
    apply plus_spec in H as (nums & t2 & m2 & -> & Hne & Hnums & H & ->); [|done].
    apply one_spec in H as (c3 & t3 & m3 & -> & ->%N.eqb_eq & H & ->).
    apply one_spec in H as (w & t4 & m4 & -> & Hw & H & ->).
    apply plus_spec in H as (body & t5 & m5 & -> & Hbne & Hbody & H & ->); [|done].
    apply one_spec in H as (c6 & rest & m6 & -> & ->%N.eqb_eq & ->%nil_spec & ->).
    exists nums, w, body, rest. repeat split; auto. lia.
  - intros (nums & w & body & rest & -> & -> & Hne & Hnums & Hw & Hbne & Hbody).
    apply one_spec.
    exists DI, (nums ++ ZHANG :: w :: body ++ NL :: rest),
      (length nums + length body + 3).
    split_and!; [done|apply N.eqb_refl| |lia].
    apply plus_spec; [done|].
    exists nums, (ZHANG :: w :: body ++ NL :: rest), (length body + 3).
    split_and!; [done..| |lia].
    apply one_spec. exists ZHANG, (w :: body ++ NL :: rest), (length body + 2).
    split_and!; [done|apply N.eqb_refl| |lia].
    apply one_spec. exists w, (body ++ NL :: rest), (length body + 1).
    split_and!; [done..| |lia].
    apply plus_spec; [done|]. exists body, (NL :: rest), 1.
    split_and!; [done..| |lia].
    apply one_spec. exists NL, rest, 0. split_and!; [done|apply N.eqb_refl| |lia].
    by apply nil_spec.
Qed.

Lemma match_here_pattern_shape s n :
  match_here pattern s = Some n ↔ heading_shape s n.
Proof.
  rewrite match_here_pattern_split. unfold heading_shape. split.
  - intros (nums & w & body & rest & -> & -> & H).
    exists nums, w, body. split; [|done].
    replace (DI :: nums ++ ZHANG :: w :: body ++ NL :: rest)
      with ((DI :: nums ++ ZHANG :: w :: body ++ [NL]) ++ rest)
      by (simpl; rewrite <- !app_assoc; simpl; by rewrite <- !app_assoc).
    rewrite take_app_length'; [done|].
    simpl. rewrite !length_app. simpl. rewrite !length_app. simpl. lia.
  - intros (nums & w & body & Htake & -> & H).
    exists nums, w, body, (drop (length nums + length body + 4) s).
    split; [|done].
    rewrite <- (take_drop (length nums + length body + 4) s) at 1.
    rewrite Htake. simpl. rewrite <- !app_assoc. simpl. by rewrite <- !app_assoc.
Qed.

Lemma heading_shape_bounds s n :
  heading_shape s n →
  6 ≤ n ∧ n ≤ length s ∧ s !! 0 = Some DI ∧ s !! pred n = Some NL.
Proof.
  intros (nums & w & body & Htake & -> & Hne & _ & _ & Hbne & _).
  assert (length nums ≠ 0) by (by destruct nums).
  assert (length body ≠ 0) by (by destruct body).
  pose proof (f_equal length Htake) as Hlen.
  rewrite length_take in Hlen. simpl in Hlen.
  rewrite length_app in Hlen. simpl in Hlen.
  rewrite length_app in Hlen. simpl in Hlen.
  split_and!; [lia..| |].
  - rewrite <- (lookup_take_lt s (length nums + length body + 4) 0) by lia.
    by rewrite Htake.
  - rewrite <- (lookup_take_lt s (length nums + length body + 4)) by lia.
    rewrite Htake.
    replace (DI :: nums ++ ZHANG :: w :: body ++ [NL])
      with ((DI :: nums ++ ZHANG :: w :: body) ++ [NL])
      by (simpl; by rewrite <- app_assoc).
    rewrite lookup_app_r; simpl; rewrite length_app; simpl; [|lia].
    by replace (_ - _) with 0 by lia.
Qed.

(** A heading ends with its newline, so text without a newline that is put
    after [s] neither adds a heading at the head of [s] nor removes one. *)
Lemma heading_shape_app s h n :
  Forall (λ c, c ≠ NL) h → heading_shape (s ++ h) n ↔ heading_shape s n.
Proof.
  intros Hh.
  assert (heading_shape (s ++ h) n → n ≤ length s) as Hin.
  { intros (_ & _ & _ & Hnl)%heading_shape_bounds.
    destruct (decide (n ≤ length s)) as [|Hgt]; [done|exfalso].
    rewrite lookup_app_r in Hnl by lia.
    apply list_elem_of_lookup_2 in Hnl.
    by eapply Forall_forall in Hh. }
  split.
  - intros H. pose proof (Hin H) as Hle.
    destruct H as (nums & w & body & Htake & H).
    exists nums, w, body. split; [|done]. by rewrite take_app_le in Htake.
  - intros H. pose proof (heading_shape_bounds _ _ H) as (_ & Hle & _).
    destruct H as (nums & w & body & Htake & H).
    exists nums, w, body. split; [|done]. by rewrite take_app_le.
Qed.

Lemma match_here_pattern_app s h :
  Forall (λ c, c ≠ NL) h → match_here pattern (s ++ h) = match_here pattern s.
Proof.
  intros Hh. apply option_eq. intros n.
  rewrite !match_here_pattern_shape. by apply heading_shape_app.
Qed.

(** ** The scanner *)

(** The first span found: it is a match, nothing before it is one, and the
    scan goes on behind it. *)
Lemma scan_cons r s : ∀ skip pos a b rest,
  scan r skip pos s = (a, b) :: rest →
  pos + skip ≤ a ∧ a < pos + length s ∧ a ≤ b
  ∧ match_here r (drop (a - pos) s) = Some (b - a)
  ∧ (∀ p, pos + skip ≤ p < a → match_here r (drop (p - pos) s) = None)
  ∧ rest = scan r (pred (b - a)) (S a) (drop (S (a - pos)) s).
Proof.
  induction s as [|c s IH]; intros skip pos a b rest; simpl; [done|].
  destruct skip as [|k].
  - destruct (match_here r (c :: s)) as [n|] eqn:E.
    + intros [= <- <- <-].
      replace (pos - pos) with 0 by lia. replace (pos + n - pos) with n by lia.
      split_and!; [lia..|done| |done]. intros p ?; lia.
    + intros H. apply IH in H as (? & ? & ? & Hm & Hnone & ->).
      replace (a - pos) with (S (a - S pos)) by lia. simpl.
      split_and!; [lia..|done| |done].
      intros p Hp. destruct (decide (p = pos)) as [->|].
      * by replace (pos - pos) with 0 by lia.
      * replace (p - pos) with (S (p - S pos)) by lia. simpl. apply Hnone. lia.
  - intros H. apply IH in H as (? & ? & ? & Hm & Hnone & ->).
    replace (a - pos) with (S (a - S pos)) by lia. simpl.
    split_and!; [lia..|done| |done].
    intros p Hp. replace (p - pos) with (S (p - S pos)) by lia. simpl.
    apply Hnone. lia.
Qed.

Lemma scan_bounds r s : ∀ skip pos a b,
  (a, b) ∈ scan r skip pos s → pos + skip ≤ a ∧ a ≤ b ∧ b ≤ pos + length s.
Proof.
  induction s as [|c s IH]; intros skip pos a b; simpl; [by intros ?%elem_of_nil|].
  destruct skip as [|k].
  - destruct (match_here r (c :: s)) as [n|] eqn:E.
    + intros [[= -> ->]|H]%elem_of_cons.
      * apply match_here_le in E. simpl in E. lia.
      * apply IH in H. lia.
    + intros H%IH. lia.
  - intros H%IH. lia.
Qed.

Lemma scan_no_newline h : ∀ skip pos,
  Forall (λ c, c ≠ NL) h → scan pattern skip pos h = [].
Proof.
  induction h as [|c h IH]; intros skip pos Hh; [done|].
  cbn [scan]. destruct skip as [|k].
  - rewrite <- (app_nil_l (c :: h)), match_here_pattern_app by done.
    apply IH. by inversion Hh.
  - apply IH. by inversion Hh.
Qed.

Lemma scan_pattern_app s h : ∀ skip pos,
  Forall (λ c, c ≠ NL) h →
  scan pattern skip pos (s ++ h) = scan pattern skip pos s.
Proof.
  induction s as [|c s IH]; intros skip pos Hh.
  - simpl. rewrite scan_no_newline by done. by destruct skip.
  - rewrite <- app_comm_cons. cbn [scan]. destruct skip as [|k].
    + rewrite app_comm_cons, match_here_pattern_app by done.
      destruct (match_here pattern (c :: s)); by rewrite IH.
    + by apply IH.
Qed.

Lemma scan_nil r s : ∀ skip pos,
  scan r skip pos s = [] →
  ∀ p, pos + skip ≤ p < pos + length s → match_here r (drop (p - pos) s) = None.
Proof.
  induction s as [|c s IH]; intros skip pos; simpl; [intros _ p ?; lia|].
  destruct skip as [|k].
  - destruct (match_here r (c :: s)) as [n|] eqn:E; [done|].
    intros H p Hp. destruct (decide (p = pos)) as [->|].
    + by replace (pos - pos) with 0 by lia.
    + replace (p - pos) with (S (p - S pos)) by lia. simpl.
      apply (IH _ _ H). lia.
  - intros H p Hp. replace (p - pos) with (S (p - S pos)) by lia. simpl.
    apply (IH _ _ H). lia.
Qed.

Lemma scan_elem r s : ∀ skip pos a b,
  (a, b) ∈ scan r skip pos s →
  pos ≤ a ∧ match_here r (drop (a - pos) s) = Some (b - a).
Proof.
  induction s as [|c s IH]; intros skip pos a b; simpl; [by intros ?%elem_of_nil|].
  assert (∀ k, (a, b) ∈ scan r k (S pos) s →
            pos ≤ a ∧ match_here r (drop (a - pos) (c :: s)) = Some (b - a)) as Hrec.
  { intros k [? Hm]%IH. split; [lia|].
    by replace (a - pos) with (S (a - S pos)) by lia. }
  destruct skip as [|k]; [|by apply Hrec].
  destruct (match_here r (c :: s)) as [n|] eqn:E; [|by apply Hrec].
  intros [[= -> ->]|H]%elem_of_cons; [|by eapply Hrec].
  replace (pos - pos) with 0 by lia. replace (pos + n - pos) with n by lia.
  by split; [lia|].
Qed.

(** Every span of [finditer] is a heading in the text, newline included. *)
Lemma finditer_heading text a b :
  (a, b) ∈ finditer pattern text →
  heading_shape (drop a text) (b - a) ∧ a < b ∧ b ≤ length text
  ∧ text !! pred b = Some NL.
Proof.
  intros H. pose proof (scan_bounds _ _ _ _ _ _ H) as (_ & _ & Hb).
  apply scan_elem in H as [_ Hm]. rewrite Nat.sub_0_r in Hm.
  apply match_here_pattern_shape in Hm.
  pose proof (heading_shape_bounds _ _ Hm) as (? & _ & _ & Hnl).
  split_and!; [done|lia|done|].
  rewrite lookup_drop in Hnl. by replace (a + pred (b - a)) with (pred b) in Hnl by lia.
Qed.

Lemma slice_heading text a b :
  heading_shape (drop a text) (b - a) →
  slice text a b = group1 text (a, b) ++ [NL].
Proof.
  intros (? & _ & _ & Hnl)%heading_shape_bounds.
  unfold group1, slice. simpl.
  replace (b - a) with (S (pred b - a)) by lia.
  erewrite take_S_r; [done|].
  by replace (pred b - a) with (pred (b - a)) by lia.
Qed.

Lemma slice_to_end text a : slice text a (length text) = drop a text.
Proof. unfold slice. apply take_ge. rewrite length_drop. lia. Qed.

(** ** [split_into_chapters] *)

Lemma split_no_match text :
  finditer pattern text = [] →
  split_into_chapters text = [mkChapter SENTINEL text].
Proof. unfold split_into_chapters. by intros ->. Qed.

Lemma chapters_of_snoc text ms m :
  ∃ chs, length chs = length ms ∧
    chapters_of text (ms ++ [m]) =
      chs ++ [mkChapter (strip (group1 text m)) (strip (drop m.2 text))].
Proof.
  induction ms as [|m0 ms (chs & Hlen & IH)].
  - exists []. split; [done|]. simpl. by rewrite slice_to_end.
  - eexists (_ :: chs). split; [by simpl; rewrite Hlen|].
    simpl. rewrite IH. done.
Qed.

(** C1.  With no heading in the text, [split_into_chapters] returns the one
    chapter titled [全文], but its content is the text as it stands: on the
    document of the disabled test [test_split_into_chapters_no_chapter_titles]
    the content keeps its leading and trailing white space, while the branch
    for texts with headings strips every content. *)
Theorem C1_no_heading_content_not_trimmed :
  finditer pattern test_no_titles = []
  ∧ split_into_chapters test_no_titles = [mkChapter SENTINEL test_no_titles]
  ∧ strip test_no_titles = u "这是第一章的内容。
        这是第二章的内容。"
  ∧ content <$> split_into_chapters test_no_titles ≠ [strip test_no_titles].
Proof. split_and!; [by vm_compute..|]. vm_compute. discriminate. Qed.

(** C5.  A text with exactly two heading matches is split into exactly two
    chapters, in the order of the text: the title of each is its heading
    line (group 1 of the match, stripped) and its content is the text from
    the end of its match to the start of the next match, or to the end of
    the text for the second, stripped.  The two matches are headings of the
    text, the first ending before the second starts. *)
Theorem C5_two_headings_two_chapters text m1 m2 :
  finditer pattern text = [m1; m2] →
  split_into_chapters text =
    [mkChapter (strip (group1 text m1)) (strip (slice text m1.2 m2.1));
     mkChapter (strip (group1 text m2)) (strip (drop m2.2 text))]
  ∧ (m1.1 < m1.2 ∧ m1.2 ≤ m2.1 ∧ m2.1 < m2.2 ∧ m2.2 ≤ length text)
  ∧ (heading_shape (drop m1.1 text) (m1.2 - m1.1)
     ∧ slice text m1.1 m1.2 = group1 text m1 ++ [NL])
  ∧ (heading_shape (drop m2.1 text) (m2.2 - m2.1)
     ∧ slice text m2.1 m2.2 = group1 text m2 ++ [NL]).
Proof.
  intros Hm. destruct m1 as [a1 b1], m2 as [a2 b2].
  assert ((a1, b1) ∈ finditer pattern text) as H1 by (rewrite Hm; set_solver).
  assert ((a2, b2) ∈ finditer pattern text) as H2 by (rewrite Hm; set_solver).
  apply finditer_heading in H1 as (Hs1 & ? & ? & _).
  apply finditer_heading in H2 as (Hs2 & ? & ? & _).
  pose proof Hm as Hc. apply scan_cons in Hc as (_ & _ & _ & _ & _ & Hrest).
  symmetry in Hrest. apply scan_cons in Hrest as (Hord & _).
  simpl. split_and!; try done.
  - unfold split_into_chapters. rewrite Hm. simpl. by rewrite slice_to_end.
  - lia.
  - by apply slice_heading.
  - by apply slice_heading.
Qed.

Lemma C5_witness :
  split_into_chapters test_normal_case =
    [mkChapter (u "第1章 万药联盟的诞生") (u "这是第一章的内容。");
     mkChapter (u "第2章 万药联盟的崛起") (u "这是第二章的内容。")].
Proof.
  destruct (C5_two_headings_two_chapters test_normal_case (9, 21) (47, 59))
    as [-> _]; [by vm_compute|by vm_compute].
Defined.

(** C6.  A text with exactly one heading match is split into exactly one
    chapter; its content is all the text behind the heading, stripped,
    whatever that text looks like, and no position of the text other than
    the one of the match starts a heading. *)
Theorem C6_one_heading_one_chapter text m :
  finditer pattern text = [m] →
  split_into_chapters text =
    [mkChapter (strip (group1 text m)) (strip (drop m.2 text))]
  ∧ heading_shape (drop m.1 text) (m.2 - m.1)
  ∧ (∀ p, p < m.1 ∨ m.2 ≤ p → match_here pattern (drop p text) = None).
Proof.
  intros Hm. destruct m as [a b].
  assert ((a, b) ∈ finditer pattern text) as H1 by (rewrite Hm; set_solver).
  apply finditer_heading in H1 as (Hs1 & ? & ? & _).
  pose proof Hm as Hc. apply scan_cons in Hc as (_ & _ & _ & _ & Hbefore & Hrest).
  simpl. split_and!; [|done|].
  - unfold split_into_chapters. rewrite Hm. simpl. by rewrite slice_to_end.
  - intros p [Hp|Hp].
    + specialize (Hbefore p). rewrite Nat.sub_0_r in Hbefore. apply Hbefore. lia.
    + destruct (decide (p < length text)) as [Hlt|Hge].
      * symmetry in Hrest. rewrite Nat.sub_0_r in Hrest.
        pose proof (scan_nil _ _ _ _ Hrest p) as Hnil.
        rewrite drop_drop, length_drop in Hnil.
        replace (S a + (p - S a)) with p in Hnil by lia.
        apply Hnil. lia.
      * by rewrite drop_ge by lia.
Qed.

Lemma C6_witness :
  split_into_chapters test_incorrect_titles =
    [mkChapter (u "第1章 万药联盟的诞生") (u "这是第一章的内容。
        这是第二章的内容。")].
Proof.
  destruct (C6_one_heading_one_chapter test_incorrect_titles (9, 21))
    as [-> _]; [by vm_compute|by vm_compute].
Defined.

(** C10.  The pattern ends with a newline, so every match ends with one.
    When a text ends with a last line [h] that has no newline behind it,
    whatever the shape of [h], the matches are those of the text before
    [h]: none starts in [h] or reaches into it.  [h] is then the end of the
    content of the last chapter, and when the text before [h] has no
    heading the whole text is the one chapter titled [全文]. *)
Theorem C10_last_line_without_newline pre h :
  Forall (λ c, c ≠ NL) h →
  finditer pattern (pre ++ h) = finditer pattern pre
  ∧ (∀ a b, (a, b) ∈ finditer pattern (pre ++ h) →
       (pre ++ h) !! pred b = Some NL ∧ b ≤ length pre)
  ∧ (finditer pattern pre = [] →
       split_into_chapters (pre ++ h) = [mkChapter SENTINEL (pre ++ h)])
  ∧ (∀ ms m, finditer pattern pre = ms ++ [m] →
       ∃ chs, length chs = length ms ∧
         split_into_chapters (pre ++ h) =
           chs ++ [mkChapter (strip (group1 (pre ++ h) m))
                             (strip (drop m.2 pre ++ h))]).
Proof.
  intros Hh.
  assert (finditer pattern (pre ++ h) = finditer pattern pre) as Heq
    by by apply scan_pattern_app.
  split_and!; [done| | |].
  - intros a b Hab. split; [by apply finditer_heading in Hab as (_ & _ & _ & ?)|].
    rewrite Heq in Hab. by apply finditer_heading in Hab as (_ & _ & ? & _).
  - intros Hnone. apply split_no_match. by rewrite Heq.
  - intros ms m Hms.
    assert (m.2 ≤ length pre) as Hle.
    { destruct m as [a b].
      assert ((a, b) ∈ finditer pattern pre) as Hin by (rewrite Hms; set_solver).
      by apply finditer_heading in Hin as (_ & _ & ? & _). }
    destruct (chapters_of_snoc (pre ++ h) ms m) as (chs & Hlen & Hchs).
    exists chs. split; [done|].
    unfold split_into_chapters. rewrite Heq, Hms, Hchs.
    rewrite drop_app_le by done. by destruct ms.
Qed.

Lemma C10_witness :
  split_into_chapters test_last_line =
    [mkChapter (u "第1章 a") (u "body
第2章 b")]
  ∧ split_into_chapters (u "第2章 b") = [mkChapter SENTINEL (u "第2章 b")].
Proof.
  split.
  - destruct (C10_last_line_without_newline (u "第1章 a
body
") (u "第2章 b")) as (_ & _ & _ & H);
      [by apply (bool_decide_unpack _); vm_compute|].
    destruct (H [] (0, 6)) as (chs & Hlen & Heq); [by vm_compute|].
    destruct chs; [|done]. vm_compute in Heq. vm_compute. exact Heq.
  - destruct (C10_last_line_without_newline [] (u "第2章 b")) as (_ & _ & H & _);
      [by apply (bool_decide_unpack _); vm_compute|].
    apply H. by vm_compute.
Defined.


(** ** Insertion-ordered dictionaries *)

Section ODFacts.
Context {V : Type}.
Implicit Types (d : list (list N * V)) (k : list N).

Lemma od_lookup_None k d : OD.lookup k d = None ↔ k ∉ OD.keys d.
Proof.
  unfold OD.keys. induction d as [|[k' v] d IH]; simpl.
  - split; [intros _ ?%elem_of_nil; done|done].
  - rewrite not_elem_of_cons, <- IH. case_bool_decide.
    + split; [done|intros [? _]; congruence].
    + split; [intros ?; split; [congruence|done] | by intros [_ ?]].
Qed.

Lemma od_lookup_snoc k k' v d :
  OD.lookup k (d ++ [(k', v)]) =
    match OD.lookup k d with
    | Some x => Some x
    | None => if bool_decide (k' = k) then Some v else None
    end.
Proof.
  induction d as [|[k0 v0] d IH]; simpl; [done|].
  by destruct (bool_decide (k0 = k)).
Qed.

Lemma od_lookup_alter f k k' d :
  OD.lookup k (OD.alter f k' d) =
    if bool_decide (k' = k) then f <$> OD.lookup k d else OD.lookup k d.
Proof.
  induction d as [|[k0 v0] d IH]; simpl; [by case_bool_decide|].
  destruct (decide (k0 = k')) as [->|];
    [rewrite bool_decide_eq_true_2 by done
    |rewrite bool_decide_eq_false_2 by done]; simpl; rewrite ?IH;
    decide_all.
Qed.

Lemma od_keys_alter f k d : OD.keys (OD.alter f k d) = OD.keys d.
Proof.
  unfold OD.keys. induction d as [|[k0 v0] d IH]; simpl; [done|].
  destruct (bool_decide (k0 = k)); simpl; [done|]. f_equal. exact IH.
Qed.
End ODFacts.

(** ** [merge_character_data] *)

Lemma merge_record_name_of merged char :
  merge_record merged char =
    match name_of char with
    | None => merged
    | Some name =>
        match OD.lookup name merged with
        | None => merged ++ [(name, seed char)]
        | Some _ => OD.alter (absorb char) name merged
        end
    end.
Proof.
  unfold merge_record, name_of. destruct (char !! u "name"); [|done].
  by case_bool_decide.
Qed.

(** The nested loops visit the records of all chapters in one sequence. *)
Lemma merge_character_data_concat cl :
  merge_character_data cl = foldl merge_record [] (concat cl).
Proof.
  unfold merge_character_data. generalize (@nil (list N * Merged)).
  induction cl as [|c cl IH]; intros acc; simpl; [done|].
  by rewrite foldl_app, IH.
Qed.

(** The entry of one name after one more record. *)
Lemma lookup_merge_record n merged char :
  OD.lookup n (merge_record merged char) =
    if bool_decide (name_of char = Some n) then
      match OD.lookup n merged with
      | Some m => Some (absorb char m)
      | None => Some (seed char)
      end
    else OD.lookup n merged.
Proof.
  rewrite merge_record_name_of. destruct (name_of char) as [name|]; [|done].
  destruct (OD.lookup name merged) as [m|] eqn:E.
  - rewrite od_lookup_alter. decide_all. by rewrite E.
  - rewrite od_lookup_snoc. decide_all.
    + by rewrite E.
    + by destruct (OD.lookup n merged).
Qed.

(** The entry of a name is made from the records of that name alone: the
    first seeds it and the others are absorbed in their order. *)
Lemma lookup_foldl_merge_record n rs : ∀ merged,
  OD.lookup n (foldl merge_record merged rs) =
    match OD.lookup n merged, filter (λ c, name_of c = Some n) rs with
    | Some m, cs => Some (foldl (λ m c, absorb c m) m cs)
    | None, [] => None
    | None, c :: cs => Some (foldl (λ m c, absorb c m) (seed c) cs)
    end.
Proof.
  induction rs as [|c rs IH]; intros merged; simpl.
  - by destruct (OD.lookup n merged).
  - rewrite IH, lookup_merge_record, filter_cons.
    case_bool_decide as Hn; case_decide; try done.
    by destruct (OD.lookup n merged).
Qed.

Lemma lookup_merge_character_data n cl :
  OD.lookup n (merge_character_data cl) =
    match filter (λ c, name_of c = Some n) (concat cl) with
    | [] => None
    | c :: cs => Some (foldl (λ m c, absorb c m) (seed c) cs)
    end.
Proof. by rewrite merge_character_data_concat, lookup_foldl_merge_record. Qed.

Lemma name_of_Some char n :
  name_of char = Some n ↔ char !! u "name" = Some n ∧ n ≠ [].
Proof.
  unfold name_of. destruct (char !! u "name") as [name|].
  - case_bool_decide; split; try done.
    + by intros [[= ->] ?].
    + by intros [= ->].
    + by intros [[= ->] ?].
  - split; [done|by intros [? _]].
Qed.

Lemma name_of_None char :
  name_of char = None ↔ char !! u "name" = None ∨ char !! u "name" = Some [].
Proof.
  unfold name_of. destruct (char !! u "name") as [name|].
  - case_bool_decide; split; try done.
    + intros _. right. by subst.
    + intros [|[= ->]]; done.
  - split; [by left|done].
Qed.

(** *** The four descriptive fields *)

Lemma pick_more_detailed incoming stored :
  more_detailed incoming stored → pick incoming stored = incoming.
Proof.
  intros (v & -> & Hv & Hlen). unfold pick.
  rewrite (bool_decide_eq_true_2 (v ≠ [])) by done.
  rewrite (bool_decide_eq_true_2 (_ < _)) by done.
  by rewrite orb_true_r.
Qed.

Lemma pick_not_more_detailed incoming stored :
  ¬ more_detailed incoming stored → pick incoming stored = stored.
Proof.
  intros Hno. unfold pick. destruct incoming as [v|]; [|done].
  destruct (decide (v = [])) as [->|Hv]; [done|].
  rewrite (bool_decide_eq_true_2 (v ≠ [])) by done. simpl.
  destruct stored as [w|].
  - rewrite (bool_decide_eq_false_2 (Some w = None)) by done.
    rewrite orb_false_l. case_bool_decide; [|done]. destruct Hno. by exists v.
  - destruct Hno. exists v. split_and!; [done..|].
    simpl. destruct v; [done|simpl; lia].
Qed.

Lemma merge_field_lookup char stored f g :
  merge_field char stored f !! g =
    if decide (g = f) then pick (char !! f) (stored !! f) else stored !! g.
Proof.
  unfold merge_field, pick. destruct (char !! f) as [v|]; [|by case_decide; subst].
  destruct (_ && _).
  - case_decide; subst; [by rewrite lookup_insert_eq|by rewrite lookup_insert_ne].
  - by case_decide; subst.
Qed.

Lemma foldl_merge_field_lookup char fs : ∀ stored g,
  NoDup fs →
  foldl (merge_field char) stored fs !! g =
    if decide (g ∈ fs) then pick (char !! g) (stored !! g) else stored !! g.
Proof.
  induction fs as [|f fs IH]; intros stored g Hnd; cbn [foldl].
  - by rewrite decide_False by apply not_elem_of_nil.
  - apply NoDup_cons in Hnd as [Hf Hnd]. rewrite IH by done.
    rewrite !merge_field_lookup.
    destruct (decide (g = f)) as [->|Hne].
    + rewrite decide_False by done. by rewrite decide_True by apply list_elem_of_here.
    + destruct (decide (g ∈ fs)).
      * by rewrite decide_True by by apply list_elem_of_further.
      * by rewrite decide_False by by intros [?|?]%elem_of_cons.
Qed.

Lemma NoDup_FIELDS : NoDup FIELDS.
Proof. by apply (bool_decide_unpack _); vm_compute. Qed.

Lemma FIELDS_not_computed field :
  field ∈ FIELDS → field ≠ u "appearances" ∧ field ≠ u "chapters".
Proof.
  unfold FIELDS. rewrite !elem_of_cons, elem_of_nil.
  intros [->|[->|[->|[->|[]]]]]; by vm_compute.
Qed.

Lemma absorb_field char m field :
  field ∈ FIELDS →
  fields (absorb char m) !! field = pick (char !! field) (fields m !! field).
Proof.
  intros Hf. unfold absorb. cbn [fields].
  rewrite foldl_merge_field_lookup by apply NoDup_FIELDS.
  by rewrite decide_True.
Qed.

Lemma seed_field char field :
  field ∈ FIELDS → fields (seed char) !! field = char !! field.
Proof.
  intros [? ?]%FIELDS_not_computed. unfold seed. cbn [fields].
  by rewrite !lookup_delete_ne.
Qed.

(** C3.  When a record [char] of a name that already has the entry
    [stored] is processed, each of the four descriptive fields of the entry
    takes the incoming value if that value is present, not empty and
    strictly longer than the stored one (a missing stored value counting as
    the empty string), and keeps its stored value otherwise; an incoming
    value of the same length as the stored one leaves it as it is. *)
Theorem C3_field_replaced_iff_strictly_longer merged char n stored field :
  char !! u "name" = Some n → n ≠ [] →
  OD.lookup n merged = Some stored →
  field ∈ FIELDS →
  ∃ stored',
    OD.lookup n (merge_record merged char) = Some stored'
    ∧ (more_detailed (char !! field) (fields stored !! field) →
         fields stored' !! field = char !! field)
    ∧ (¬ more_detailed (char !! field) (fields stored !! field) →
         fields stored' !! field = fields stored !! field)
    ∧ (∀ v, char !! field = Some v →
         length v = length (default [] (fields stored !! field)) →
         fields stored' !! field = fields stored !! field).
Proof.
  intros Hname Hn Hstored Hfield.
  assert (name_of char = Some n) as Hnm by by apply name_of_Some.
  exists (absorb char stored). split.
  { by rewrite lookup_merge_record, bool_decide_eq_true_2, Hstored. }
  rewrite absorb_field by done. split_and!.
  - apply pick_more_detailed.
  - apply pick_not_more_detailed.
  - intros v Hv Hlen. apply pick_not_more_detailed.
    intros (v' & Hv' & _ & Hlt). rewrite Hv in Hv'. simplify_eq. lia.
Qed.

Lemma C3_witness :
  ∃ stored',
    OD.lookup (u "a") (merge_record [(u "a", seed rec_xy)] rec_xyz) = Some stored'
    ∧ fields stored' !! u "personality" = Some (u "xyz").
Proof.
  destruct (C3_field_replaced_iff_strictly_longer
              [(u "a", seed rec_xy)] rec_xyz (u "a") (seed rec_xy) (u "personality"))
    as (stored' & Hl & Hrep & _); [by vm_compute..|by compute_dec|].
  exists stored'. split; [done|]. rewrite Hrep; [by vm_compute|].
  exists (u "xyz"). split_and!; [by vm_compute..|by compute_dec].
Defined.

(** *** Two chapters *)

(** The stored value after an incoming one, by lengths: the incoming value
    when it is strictly longer, the stored one otherwise. *)
Lemma pick_longer incoming stored :
  pick incoming stored =
    if decide (length (default [] stored) < length (default [] incoming))
    then incoming else stored.
Proof.
  case_decide as Hlen.
  - apply pick_more_detailed. destruct incoming as [v|]; simpl in Hlen; [|lia].
    exists v. split_and!; [done| |done]. intros ->. simpl in Hlen. lia.
  - apply pick_not_more_detailed. intros (v & -> & _ & Hlt). by simpl in Hlen.
Qed.

(** C4, as the code has it.  When each of two chapters holds exactly one
    record of the name [n] (in particular when one list is given twice), the
    merged entry of [n] has [appearances = 2] and each descriptive field
    holds the longer of the two values, the first one when they are equally
    long; when the lengths differ the same value is kept whichever chapter
    comes first. *)
Theorem C4_two_chapters_one_record_each L1 L2 c1 c2 n :
  filter (λ c, name_of c = Some n) L1 = [c1] →
  filter (λ c, name_of c = Some n) L2 = [c2] →
  ∃ m m',
    OD.lookup n (merge_character_data [L1; L2]) = Some m
    ∧ OD.lookup n (merge_character_data [L2; L1]) = Some m'
    ∧ appearances m = 2%Z ∧ appearances m' = 2%Z
    ∧ chapters m = [first_appearance c1; first_appearance c2]
    ∧ ∀ field, field ∈ FIELDS →
        let v1 := c1 !! field in
        let v2 := c2 !! field in
        fields m !! field =
          (if decide (length (default [] v1) < length (default [] v2))
           then v2 else v1)
        ∧ (length (default [] v1) ≠ length (default [] v2) →
             fields m' !! field = fields m !! field)
        ∧ (c1 = c2 → fields m !! field = v1).
Proof.
  intros H1 H2.
  exists (absorb c2 (seed c1)), (absorb c1 (seed c2)).
  rewrite !lookup_merge_character_data. cbn [concat]. rewrite !app_nil_r.
  rewrite !filter_app, H1, H2. cbn [app foldl].
  split_and!; [done..|].
  intros field Hf. cbv zeta.
  rewrite !absorb_field, !seed_field, !pick_longer by done.
  split_and!; [done| |].
  - intros Hne. repeat case_decide; try done; lia.
  - intros ->. by case_decide.
Qed.

Lemma C4_witness :
  ∃ m, OD.lookup (u "a") (merge_character_data [[rec_xy]; [rec_xyz]]) = Some m
       ∧ appearances m = 2%Z
       ∧ fields m !! u "personality" = Some (u "xyz").
Proof.
  destruct (C4_two_chapters_one_record_each [rec_xy] [rec_xyz] rec_xy rec_xyz (u "a"))
    as (m & m' & Hl & _ & Happ & _ & _ & Hf); [vm_compute; reflexivity..|].
  exists m. split_and!; [done..|].
  destruct (Hf (u "personality")) as (-> & _); [by compute_dec|by vm_compute].
Defined.

(** C4, as it is worded, fails: a chapter list with two records of one name,
    given twice, yields [appearances = 4]. *)
Lemma C4_counterexample :
  rec_xy ∈ [rec_xy; rec_xy] ∧ rec_xy !! u "name" = Some (u "a") ∧ u "a" ≠ []
  ∧ appearances <$>
      OD.lookup (u "a")
        (merge_character_data [[rec_xy; rec_xy]; [rec_xy; rec_xy]])
    = Some 4%Z
  ∧ appearances <$>
      OD.lookup (u "a")
        (merge_character_data [[rec_xy; rec_xy]; [rec_xy; rec_xy]])
    ≠ Some 2%Z.
Proof. split_and!; [by compute_dec|by vm_compute..]. Qed.

(** *** Records without a name, and the first record of a name *)

Lemma merge_record_unnamed merged char :
  name_of char = None → merge_record merged char = merged.
Proof. intros H. by rewrite merge_record_name_of, H. Qed.

Lemma foldl_merge_record_filter rs : ∀ merged,
  foldl merge_record merged (filter (λ c, is_Some (name_of c)) rs) =
  foldl merge_record merged rs.
Proof.
  induction rs as [|c rs IH]; intros merged; [done|].
  rewrite filter_cons. case_decide as Hc; cbn [foldl].
  - apply IH.
  - rewrite merge_record_unnamed; [apply IH|].
    destruct (name_of c); [|done]. destruct Hc. by eexists.
Qed.

(** C7.  A record whose name is missing or empty leaves the mapping as it
    is, so the result is that of the input without such records.  A record
    with a non-empty name that the mapping does not hold yet is put last
    with the entry [seed char]: the keys of the record, [appearances = 1] and
    [chapters] the one-element list of its [first_appearance], or of the
    empty string when the record has none.  That holds in particular for the
    first record of a name in the scan. *)
Theorem C7_unnamed_skipped_first_seeds :
  (∀ merged char,
     char !! u "name" = None ∨ char !! u "name" = Some [] →
     merge_record merged char = merged)
  ∧ (∀ cl,
       merge_character_data (filter (λ c, is_Some (name_of c)) <$> cl) =
       merge_character_data cl)
  ∧ (∀ merged char n,
       char !! u "name" = Some n → n ≠ [] → OD.lookup n merged = None →
       merge_record merged char = merged ++ [(n, seed char)]
       ∧ appearances (seed char) = 1%Z
       ∧ chapters (seed char) = [default [] (char !! u "first_appearance")]
       ∧ (∀ k, k ≠ u "appearances" → k ≠ u "chapters" →
            fields (seed char) !! k = char !! k))
  ∧ (∀ pre char n,
       char !! u "name" = Some n → n ≠ [] →
       (∀ c, c ∈ pre → c !! u "name" ≠ Some n) →
       OD.lookup n (foldl merge_record [] (pre ++ [char])) = Some (seed char)).
Proof.
  split_and!.
  - intros merged char H. by apply merge_record_unnamed, name_of_None.
  - intros cl. rewrite !merge_character_data_concat.
    rewrite <- (foldl_merge_record_filter (concat cl)). f_equal.
    induction cl as [|c cl IH]; [done|].
    cbn [fmap list_fmap concat]. by rewrite filter_app, <- IH.
  - intros merged char n Hname Hn Hnone.
    assert (name_of char = Some n) as Hnm by by apply name_of_Some.
    rewrite merge_record_name_of, Hnm, Hnone. split_and!; [done..|].
    intros k ? ?. unfold seed. cbn [fields]. by rewrite !lookup_delete_ne.
  - intros pre char n Hname Hn Hpre.
    assert (name_of char = Some n) as Hnm by by apply name_of_Some.
    assert (filter (λ c, name_of c = Some n) pre = []) as Hnil.
    { induction pre as [|c pre IH]; [done|].
      rewrite filter_cons, decide_False, IH; [done| |].
      - intros c' Hc'. apply Hpre. by apply list_elem_of_further.
      - intros [Hc _]%name_of_Some. by apply (Hpre c); [apply list_elem_of_here|]. }
    rewrite lookup_foldl_merge_record. cbn [OD.lookup].
    by rewrite filter_app, Hnil, filter_cons, decide_True.
Qed.

Lemma C7_witness :
  merge_record [] (rec [("personality", "xy")]) = []
  ∧ merge_record [] (rec [("name", ""); ("personality", "xy")]) = []
  ∧ merge_record [] rec_xy = [(u "a", seed rec_xy)]
  ∧ chapters (seed rec_xy) = [[]]
  ∧ OD.lookup (u "a")
      (foldl merge_record [] ([rec [("personality", "xy")]] ++ [rec_xyz]))
    = Some (seed rec_xyz).
Proof.
  destruct C7_unnamed_skipped_first_seeds as (Hskip & _ & Hseed & Hfirst).
  split_and!.
  - apply Hskip. left. vm_compute; reflexivity.
  - apply Hskip. right. vm_compute; reflexivity.
  - destruct (Hseed [] rec_xy (u "a")) as (Heq & _);
      [vm_compute; reflexivity|by vm_compute|vm_compute; reflexivity|exact Heq].
  - vm_compute; reflexivity.
  - apply Hfirst; [vm_compute; reflexivity|by vm_compute|].
    intros c ->%list_elem_of_singleton. by vm_compute.
Defined.

(** *** The keys of the result *)

Lemma first_seen_elem x l : x ∈ first_seen l ↔ x ∈ l.
Proof.
  induction l as [|y l IH]; [done|]. cbn [first_seen].
  rewrite !elem_of_cons, list_elem_of_filter, IH.
  destruct (decide (x = y)) as [->|]; split; auto.
  - by intros [?|[_ ?]]; [left|right].
  - intros [?|?]; [by left|by right].
Qed.

Lemma first_seen_NoDup l : NoDup (first_seen l).
Proof.
  induction l as [|y l IH]; cbn [first_seen]; [constructor|].
  apply NoDup_cons. split.
  - by intros [? _]%list_elem_of_filter.
  - by apply NoDup_filter.
Qed.

Lemma keys_merge_record merged char :
  OD.keys (merge_record merged char) =
    match name_of char with
    | Some n =>
        if decide (n ∈ OD.keys merged) then OD.keys merged
        else OD.keys merged ++ [n]
    | None => OD.keys merged
    end.
Proof.
  rewrite merge_record_name_of. destruct (name_of char) as [n|]; [|done].
  destruct (OD.lookup n merged) as [m|] eqn:E.
  - rewrite od_keys_alter, decide_True; [done|].
    destruct (decide (n ∈ OD.keys merged)) as [|Hn]; [done|].
    apply od_lookup_None in Hn. by rewrite Hn in E.
  - apply od_lookup_None in E. rewrite decide_False by done.
    unfold OD.keys. by rewrite fmap_app.
Qed.

Lemma keys_foldl_merge_record rs : ∀ merged,
  OD.keys (foldl merge_record merged rs) =
    OD.keys merged
    ++ filter (λ n, n ∉ OD.keys merged) (first_seen (omap name_of rs)).
Proof.
  induction rs as [|c rs IH]; intros merged; cbn [foldl omap list_omap].
  - by rewrite app_nil_r.
  - rewrite IH, keys_merge_record. fold (omap name_of rs).
    destruct (name_of c) as [n|]; [|done]. cbn [first_seen].
    set (fs := first_seen (omap name_of rs)).
    destruct (decide (n ∈ OD.keys merged)) as [Hin|Hnin].
    + rewrite filter_cons, decide_False by (by intros ?).
      rewrite list_filter_filter. f_equal. apply list_filter_iff.
      intros x. split; [|by intros [? _]].
      intros Hx. split; [done|]. by intros ->.
    + rewrite filter_cons, decide_True by done.
      rewrite list_filter_filter, <- app_assoc. cbn [app]. do 2 f_equal.
      apply list_filter_iff. intros x.
      rewrite elem_of_app, list_elem_of_singleton. split.
      * intros Hx. split; intros ?; apply Hx; auto.
      * by intros [? ?] [?|?].
Qed.

Lemma keys_merge_character_data cl :
  OD.keys (merge_character_data cl) = first_seen (omap name_of (concat cl)).
Proof.
  rewrite merge_character_data_concat, keys_foldl_merge_record. cbn [OD.keys fmap list_fmap app].
  induction (first_seen _) as [|x l IH]; [done|].
  rewrite filter_cons, decide_True by apply not_elem_of_nil. by rewrite IH.
Qed.

(** C8.  The result is a function of the sequence of records alone, the
    chapters one after the other.  Its keys are distinct, they are the
    non-empty names that occur in the input, and they come in the order in
    which the scan meets each name for the first time.  Any rearrangement of
    the records yields the same keys, up to their order. *)
Theorem C8_one_entry_per_name_first_seen_order cl :
  merge_character_data cl = foldl merge_record [] (concat cl)
  ∧ NoDup (OD.keys (merge_character_data cl))
  ∧ (∀ n, n ∈ OD.keys (merge_character_data cl) ↔
          ∃ char, char ∈ concat cl ∧ char !! u "name" = Some n ∧ n ≠ [])
  ∧ OD.keys (merge_character_data cl) = first_seen (omap name_of (concat cl))
  ∧ (∀ cl', concat cl' ≡ₚ concat cl →
       OD.keys (merge_character_data cl') ≡ₚ OD.keys (merge_character_data cl)).
Proof.
  assert (∀ cl n, n ∈ OD.keys (merge_character_data cl) ↔
            ∃ char, char ∈ concat cl ∧ char !! u "name" = Some n ∧ n ≠ []) as Hkeys.
  { intros cl0 n.
    rewrite keys_merge_character_data, first_seen_elem, list_elem_of_omap.
    by setoid_rewrite name_of_Some. }
  split_and!.
  - apply merge_character_data_concat.
  - rewrite keys_merge_character_data. apply first_seen_NoDup.
  - apply Hkeys.
  - apply keys_merge_character_data.
  - intros cl' Hperm. apply NoDup_Permutation.
    + rewrite keys_merge_character_data. apply first_seen_NoDup.
    + rewrite keys_merge_character_data. apply first_seen_NoDup.
    + intros n. rewrite !Hkeys. by setoid_rewrite Hperm.
Qed.

Lemma C8_witness :
  OD.keys (merge_character_data [[rec_b; rec_xy]; [rec_xyz; rec_b]])
    = [u "b"; u "a"]
  ∧ OD.keys (merge_character_data [[rec_xy]; [rec_b; rec_xyz; rec_b]])
      ≡ₚ OD.keys (merge_character_data [[rec_b; rec_xy]; [rec_xyz; rec_b]]).
Proof.
  destruct (C8_one_entry_per_name_first_seen_order
              [[rec_b; rec_xy]; [rec_xyz; rec_b]]) as (_ & _ & _ & -> & Hperm).
  split; [vm_compute; reflexivity|].
  rewrite (Hperm [[rec_xy]; [rec_b; rec_xyz; rec_b]]); [vm_compute; reflexivity|].
  cbn [concat app]. apply Permutation_swap.
Defined.

(** ** [_call_model_api] *)

Section CallFacts.
Import Api.
Variable server : nat → reply.
Variable max_retries : nat.
Variable retry_delay : Z.

Local Abbreviation attempts := (attempts server max_retries retry_delay).

(** The ways an iteration goes: it ends the call, the loop goes on at
    once, it goes on after the sleep, or the sleep raises. *)
Lemma attempts_cases a n :
  (((judge (server a) = Break ∧ (attempts a (S n)).1 = Returned None)
    ∨ ∃ data, judge (server a) = Return data
              ∧ (attempts a (S n)).1 = Returned (Some data))
   ∧ (attempts a (S n)).2 = [Post a])
  ∨ ((judge (server a) = Continue
      ∨ (judge (server a) = TimedOut ∧ ¬ a < max_retries - 1))
     ∧ (attempts a (S n)).2 = Post a :: (attempts (S a) n).2
     ∧ (attempts a (S n)).1 = (attempts (S a) n).1)
  ∨ (judge (server a) = TimedOut ∧ a < max_retries - 1 ∧ (0 ≤ retry_delay)%Z
     ∧ (attempts a (S n)).2 =
         Post a :: Sleep retry_delay :: (attempts (S a) n).2
     ∧ (attempts a (S n)).1 = (attempts (S a) n).1)
  ∨ (judge (server a) = TimedOut ∧ a < max_retries - 1 ∧ (retry_delay < 0)%Z
     ∧ (attempts a (S n)).2 = [Post a; Sleep retry_delay]
     ∧ (attempts a (S n)).1 = Raised).
Proof.
  cbn [Api.attempts]. destruct (judge (server a)).
  - left. split; [right; by eexists|done].
  - right. left. destruct (Api.attempts _ _ _ _ _). split; [by left|done].
  - destruct (decide (a < max_retries - 1)) as [Ha|Ha].
    + rewrite (bool_decide_eq_true_2 _ Ha).
      destruct (decide (retry_delay < 0)%Z) as [Hd|Hd].
      * rewrite (bool_decide_eq_true_2 _ Hd). right. right. right. done.
      * rewrite (bool_decide_eq_false_2 _ Hd). right. right. left.
        destruct (Api.attempts _ _ _ _ _). split_and!; [done..|lia|done|done].
    + rewrite (bool_decide_eq_false_2 _ Ha). right. left.
      destruct (Api.attempts _ _ _ _ _). split; [by right|done].
  - left. split; [by left|done].
Qed.









End CallFacts.

Lemma judge_soft_failure r : Api.soft_failure r → Api.judge r = Api.Continue.
Proof.
  destruct 1 as [status body Hs| |v Hv|members Hm|members message Hm Hc];
    cbn [Api.judge].
  - by rewrite bool_decide_eq_true_2.
  - done.
  - rewrite bool_decide_eq_false_2 by (by intros ?).
    destruct v; try done. by destruct (Hv members).
  - rewrite bool_decide_eq_false_2 by (by intros ?). by rewrite Hm.
  - rewrite bool_decide_eq_false_2 by (by intros ?). by rewrite Hm, Hc.
Qed.

Lemma judge_timeout r : Api.judge r = Api.TimedOut ↔ r = Api.Timeout.
Proof.
  split; [|by intros ->]. destruct r as [| |status body]; try done.
  cbn [Api.judge]. case_bool_decide; [done|].
  destruct body as [[]|]; try done.
  destruct (Api.obj_get _ _) as [m|]; [|done].
  by destruct (Api.has_content m) as [[]|].
Qed.




(** ** [generate_final_report] *)

Lemma header_spec chaps characters failed :
  header (length chaps) failed (length characters) =
    u "=== 小说角色分析报告 ===" ++ [NL; NL]
    ++ spec_statistics chaps characters failed
    ++ [NL] ++ u "【角色详细信息】" ++ [NL].
Proof.
  unfold header, spec_statistics, labelled.
  generalize (str_of_Z (Z.of_nat (length chaps))).
  generalize (str_of_Z (Z.of_nat (length chaps) - failed)).
  generalize (str_of_Z failed).
  generalize (str_of_Z (Z.of_nat (length characters))).
  intros a b c d. rewrite <- !app_assoc. vm_compute. reflexivity.
Qed.

Lemma shown_spec data key : shown data key = spec_field data key.
Proof. unfold shown, spec_field. by destruct (fields data !! key). Qed.

Lemma section_spec name data : section name data = spec_section name data.
Proof.
  unfold section, spec_section, detail, labelled.
  rewrite (shown_spec data (u "appearance")), (shown_spec data (u "personality")),
    (shown_spec data (u "relationships")), (shown_spec data (u "significance")).
  generalize (str_of_Z (appearances data)).
  generalize (join (u ", ") (chapters data)).
  generalize (spec_field data (u "appearance")).
  generalize (spec_field data (u "personality")).
  generalize (spec_field data (u "relationships")).
  generalize (spec_field data (u "significance")).
  intros a b c d e f. rewrite <- !app_assoc. vm_compute. reflexivity.
Qed.

Lemma RULE_spec : RULE = spec_rule.
Proof. vm_compute. reflexivity. Qed.

Lemma foldl_report (characters : list (list N * Merged)) : ∀ report,
  foldl (λ report '(name, data), (report ++ section name data) ++ RULE)
    report characters =
  report ++ mjoin ((λ '(name, data), section name data ++ RULE) <$> characters).
Proof.
  induction characters as [|[name data] cs IH]; intros report; cbn [foldl].
  - by rewrite app_nil_r.
  - rewrite IH. cbn [fmap list_fmap mjoin list_join].
    by rewrite <- !app_assoc.
Qed.

Lemma bytes_of_String c s : bytes_of (String c s) = N_of_ascii c :: bytes_of s.
Proof. done. Qed.

Lemma bytes_of_app s1 s2 : bytes_of (s1 +:+ s2) = bytes_of s1 ++ bytes_of s2.
Proof.
  induction s1 as [|c s1 IH]; [done|].
  unfold bytes_of in *. simpl. f_equal. exact IH.
Qed.

Lemma pretty_N_char_code m :
  (m < 10)%N → N_of_ascii (pretty_N_char m) = (48 + m)%N.
Proof.
  intros Hm.
  assert (m = 0 ∨ m = 1 ∨ m = 2 ∨ m = 3 ∨ m = 4 ∨ m = 5 ∨ m = 6
          ∨ m = 7 ∨ m = 8 ∨ m = 9)%N as Hc by lia.
  by repeat (destruct Hc as [->|Hc]; [done|]); subst.
Qed.

Lemma digits_value_app acc d1 d2 :
  digits_value acc (d1 ++ d2) = digits_value (digits_value acc d1) d2.
Proof. unfold digits_value. by rewrite foldl_app. Qed.

(** The digits that [pretty_N_go] puts before [s] are those of [x]. *)
Lemma pretty_N_go_digits x :
  ∃ d, (∀ s, bytes_of (pretty_N_go x s) = d ++ bytes_of s)
       ∧ Forall (λ c, 48 ≤ c ≤ 57)%N d
       ∧ ∀ acc, digits_value acc d = (acc * 10 ^ N.of_nat (length d) + x)%N.
Proof.
  induction (N.lt_wf_0 x) as [x _ IH].
  destruct (decide (x = 0%N)) as [->|Hx].
  { exists []. split_and!; [done|constructor|]. intros acc. simpl. lia. }
  destruct (IH (x `div` 10)%N) as (d & Hd & Hdig & Hval).
  { apply N.div_lt; lia. }
  assert (x `mod` 10 < 10)%N as Hmod by (apply N.mod_lt; lia).
  exists (d ++ [(48 + x `mod` 10)%N]). split_and!.
  - intros s. rewrite pretty_N_go_step by lia.
    rewrite Hd, bytes_of_String, pretty_N_char_code by done.
    by rewrite <- app_assoc.
  - apply Forall_app. split; [done|]. constructor; [|constructor].
    revert Hmod. generalize (x `mod` 10)%N. intros m Hm. lia.
  - intros acc. rewrite digits_value_app, Hval, length_app.
    unfold digits_value. cbn [foldl length].
    rewrite Nat.add_1_r, Nat2N.inj_succ, N.pow_succ_r'.
    pose proof (N.div_mod x 10 ltac:(lia)) as Hdm. revert Hdm Hmod.
    generalize (x `mod` 10)%N (x `div` 10)%N (10 ^ N.of_nat (length d))%N.
    intros m q e Hdm Hm. nia.
Qed.

Lemma str_of_N_digits x :
  ∃ d, bytes_of (pretty x) = d
       ∧ d ≠ [] ∧ Forall (λ c, 48 ≤ c ≤ 57)%N d
       ∧ digits_value 0 d = x.
Proof.
  unfold pretty, pretty_N. case_decide as Hx.
  - subst. exists [48%N]. split_and!; [done..| |done].
    constructor; [cbv beta; lia|constructor].
  - destruct (pretty_N_go_digits x) as (d & Hd & Hdig & Hval).
    exists d. rewrite Hd. split_and!; [by rewrite app_nil_r| |done|].
    + intros ->. specialize (Hval 0%N). simpl in Hval. lia.
    + rewrite Hval. lia.
Qed.

(** [str] of an integer is its decimal numeral: reading it back gives the
    integer. *)
Lemma int_of_str_of_Z z : int_of_str (str_of_Z z) = z.
Proof.
  unfold str_of_Z, pretty, pretty_Z. destruct z as [|x|x].
  - done.
  - destruct (str_of_N_digits (N.pos x)) as (d & Hd & Hne & Hdig & Hval).
    unfold pretty, pretty_positive. rewrite Hd. unfold int_of_str.
    destruct d as [|c d]; [done|].
    apply Forall_cons in Hdig as [Hc _].
    assert (c ≠ 45%N) as Hne'%N.eqb_neq by lia.
    by rewrite Hne', Hval.
  - destruct (str_of_N_digits (N.pos x)) as (d & Hd & Hne & Hdig & Hval).
    rewrite bytes_of_app. unfold pretty, pretty_positive. rewrite Hd.
    change (bytes_of "-") with [45%N]. cbn [app int_of_str].
    by rewrite N.eqb_refl, Hval.
Qed.

(** C9.  The report is the title, the statistics block with the number of
    chapters, that number less the failed count, the failed count and the
    number of entries of the mapping, and one section per character in the
    order of the mapping, each closed by a rule line.  A section shows the
    name, the appearances, the chapters joined with a comma and a space, and
    the four descriptive fields, each one as its value or, when the key is
    absent from the record, as the placeholder.  The numbers are shown as
    decimal numerals, which read back give the number, and the joined
    chapters are the chapters in their order with the separator between
    each two. *)
Theorem C9_report_layout chaps characters failed :
  generate_final_report chaps characters failed
    = spec_report chaps characters failed
  ∧ (∀ z, int_of_str (str_of_Z z) = z)
  ∧ (∀ sep x y l,
       join sep [] = [] ∧ join sep [x] = x
       ∧ join sep (x :: y :: l) = x ++ sep ++ join sep (y :: l))
  ∧ (∀ data key,
       spec_field data key
       = match fields data !! key with Some v => v | None => u "无记录" end).
Proof.
  split_and!; [|apply int_of_str_of_Z|done|done].
  unfold generate_final_report, spec_report.
  rewrite foldl_report, header_spec, <- !app_assoc. do 7 f_equal.
  induction characters as [|[name data] cs IH]; [done|].
  cbn [fmap list_fmap]. by rewrite IH, section_spec, RULE_spec.
Qed.

(** The report of three chapters, one of them failed, and one character
    seen in two chapters, with two of its descriptive fields missing. *)
Lemma C9_witness :
  generate_final_report report_chapters report_characters 1
  = u "=== 小说角色分析报告 ===

【统计信息】
总章节数: 3
成功分析: 2
失败章节: 1
发现角色: 1

【角色详细信息】

■ 角色名称: 张三
    ▸ 出现次数: 2
    ▸ 出现章节: 第1章, 第2章
    ▸ 外貌特征: 无记录
    ▸ 性格特点: 勇敢
    ▸ 人物关系: 无记录
    ▸ 角色重要性: 主角
━━━━━━━━━━━━━━━━━━━━━━━━━━━━━━━━━━━━━━━━━━━━━━━━━━━━━━━━━━━━
".
Proof.
  destruct (C9_report_layout report_chapters report_characters 1) as [-> _].
  vm_compute. reflexivity.
Defined.

(** The report of two chapters, one of them failed, and no character. *)
Example report_without_characters :
  generate_final_report
    [mkChapter (u "第1章 a") (u "x"); mkChapter (u "第2章 b") (u "y")] [] 1
  = u "=== 小说角色分析报告 ===

【统计信息】
总章节数: 2
成功分析: 1
失败章节: 1
发现角色: 0

【角色详细信息】
".
Proof. vm_compute. reflexivity. Qed.

(** * Further properties *)

(** ** [split_into_chapters]: any number of headings *)

Lemma length_chapters_of text ms : length (chapters_of text ms) = length ms.
Proof. induction ms as [|m ms IH]; [done|]. cbn [chapters_of length]. by rewrite IH. Qed.

(** The result is never empty: one chapter per heading, and one chapter for
    a text without headings, the empty text included.  The test
    [if not chapters] of [process_novel] therefore never fires. *)
Theorem split_chapter_count text :
  length (split_into_chapters text) = max 1 (length (finditer pattern text))
  ∧ split_into_chapters text ≠ [].
Proof.
  unfold split_into_chapters.
  destruct (finditer pattern text) as [|m ms] eqn:E; [done|].
  rewrite length_chapters_of. split; [simpl; lia|done].
Qed.

Lemma chapters_of_lookup text ms : ∀ i m,
  ms !! i = Some m →
  chapters_of text ms !! i =
    Some (mkChapter (strip (group1 text m))
            (strip (slice text m.2
                      (default (length text) (fst <$> ms !! S i))))).
Proof.
  induction ms as [|m0 ms IH]; intros i m; [done|].
  destruct i as [|i]; cbn [chapters_of].
  - intros [= ->]. by destruct ms.
  - intros H. apply (IH _ _ H).
Qed.

(** The chapter of the [i]-th heading, for any number of headings: its
    title is group 1 of the match, stripped, and its content is the text
    between the end of the match and the start of the next match, or the
    end of the text for the last heading, stripped. *)
Theorem split_nth_chapter text i m :
  finditer pattern text !! i = Some m →
  split_into_chapters text !! i =
    Some (mkChapter (strip (group1 text m))
            (strip (slice text m.2
                      (default (length text)
                         (fst <$> finditer pattern text !! S i))))).
Proof.
  intros H. unfold split_into_chapters.
  destruct (finditer pattern text) as [|m0 ms] eqn:E; [done|].
  by apply chapters_of_lookup.
Qed.

Lemma split_nth_chapter_witness :
  split_into_chapters test_normal_case !! 1 =
    Some (mkChapter (u "第2章 万药联盟的崛起") (u "这是第二章的内容。")).
Proof.
  rewrite (split_nth_chapter test_normal_case 1 (47, 59));
    vm_compute; reflexivity.
Defined.

(** ** Chapters of a text with headings carry no outer white space *)












(** ** No heading is passed over, and the text before the first is dropped *)

Lemma scan_covers s : ∀ skip pos p n,
  pos + skip ≤ p →
  match_here pattern (drop (p - pos) s) = Some n →
  ∃ a b, (a, b) ∈ scan pattern skip pos s ∧ a ≤ p < b.
Proof.
  induction s as [|c s IH]; intros skip pos p n Hp Hm.
  { by rewrite drop_nil in Hm. }
  cbn [scan]. destruct skip as [|k].
  - destruct (match_here pattern (c :: s)) as [n0|] eqn:E.
    + destruct (decide (p < pos + n0)) as [Hlt|Hge].
      * exists pos, (pos + n0). split; [apply list_elem_of_here|lia].
      * apply match_here_pattern_shape, heading_shape_bounds in E as (? & _).
        replace (p - pos) with (S (p - S pos)) in Hm by lia.
        destruct (IH (pred n0) (S pos) p n) as (a & b & Hin & ?); [lia|done|].
        exists a, b. split; [by apply list_elem_of_further|done].
    + destruct (decide (p = pos)) as [->|Hne].
      { rewrite Nat.sub_diag in Hm. cbn [drop] in Hm. congruence. }
      replace (p - pos) with (S (p - S pos)) in Hm by lia.
      apply (IH 0 (S pos) p n); [lia|done].
  - replace (p - pos) with (S (p - S pos)) in Hm by lia.
    apply (IH k (S pos) p n); [lia|done].
Qed.

(** Wherever the text has the shape of a heading, a chapter starts there,
    unless the place lies inside the heading line of a chapter that starts
    earlier. *)
Theorem heading_starts_chapter_or_inside text p n :
  heading_shape (drop p text) n →
  (p, p + n) ∈ finditer pattern text
  ∨ ∃ a b, (a, b) ∈ finditer pattern text ∧ a < p < b.
Proof.
  intros Hs%match_here_pattern_shape.
  destruct (scan_covers text 0 0 p n) as (a & b & Hin & Hab);
    [lia|by rewrite Nat.sub_0_r|].
  destruct (decide (a = p)) as [->|Hne].
  - left. pose proof Hin as [_ Hm]%scan_elem.
    rewrite Nat.sub_0_r, Hs in Hm.
    by replace (p + n) with b by (injection Hm; lia).
  - right. exists a, b. split; [done|lia].
Qed.

Lemma heading_starts_chapter_or_inside_witness :
  (47, 59) ∈ finditer pattern test_normal_case
  ∨ ∃ a b, (a, b) ∈ finditer pattern test_normal_case ∧ a < 47 < b.
Proof.
  apply (heading_starts_chapter_or_inside test_normal_case 47 12).
  apply match_here_pattern_shape. vm_compute. reflexivity.
Defined.

Lemma scan_shift r s d : ∀ skip pos,
  scan r skip (pos + d) s = (λ m, (m.1 + d, m.2 + d)) <$> scan r skip pos s.
Proof.
  induction s as [|c s IH]; intros skip pos; [done|]. cbn [scan].
  destruct skip as [|k].
  - destruct (match_here r (c :: s)) as [n|].
    + cbn [fmap list_fmap]. rewrite <- IH. cbn [fst snd]. do 2 f_equal. lia.
    + apply (IH 0 (S pos)).
  - apply (IH k (S pos)).
Qed.

Lemma scan_drop r : ∀ a s pos,
  (∀ p, p < a → match_here r (drop p s) = None) → a ≤ length s →
  scan r 0 pos s = scan r 0 (pos + a) (drop a s).
Proof.
  induction a as [|a IH]; intros s pos Hnone Hlen.
  { by rewrite Nat.add_0_r. }
  destruct s as [|c s]; [simpl in Hlen; lia|]. cbn [scan drop].
  pose proof (Hnone 0 ltac:(lia)) as H0. cbn [drop] in H0. rewrite H0.
  rewrite (IH s (S pos)).
  - f_equal. lia.
  - intros p Hp. apply (Hnone (S p)). lia.
  - simpl in Hlen. lia.
Qed.

Lemma chapters_of_shift text a ms :
  a ≤ length text →
  chapters_of text ((λ m, (m.1 + a, m.2 + a)) <$> ms)
  = chapters_of (drop a text) ms.
Proof.
  intros Ha. induction ms as [|[x y] ms IH]; [done|].
  cbn [fmap list_fmap chapters_of fst snd]. rewrite <- IH. f_equal.
  unfold group1, slice. cbn [fst snd]. rewrite !drop_drop.
  replace (a + x) with (x + a) by lia. replace (a + y) with (y + a) by lia.
  replace (pred (y + a) - (x + a)) with (pred y - x) by lia.
  f_equal. f_equal. f_equal.
  destruct ms as [|[x' y'] ms']; cbn [fmap list_fmap fst].
  - rewrite length_drop. lia.
  - lia.
Qed.

(** The text before the first heading takes no part in the result: the
    chapters are those of the text that starts at the first heading. *)
Theorem split_drops_text_before_first_heading text m ms :
  finditer pattern text = m :: ms →
  split_into_chapters text = split_into_chapters (drop m.1 text).
Proof.
  destruct m as [a b]. intros Hm. cbn [fst].
  pose proof Hm as (_ & Ha & _ & _ & Hnone & _)%scan_cons.
  assert (finditer pattern text
          = (λ m, (m.1 + a, m.2 + a)) <$> finditer pattern (drop a text)) as Hshift.
  { unfold finditer. rewrite <- (scan_shift pattern (drop a text) a 0 0).
    apply scan_drop; [|simpl in Ha; lia].
    intros p Hp. specialize (Hnone p). rewrite Nat.sub_0_r in Hnone.
    apply Hnone. lia. }
  unfold split_into_chapters. rewrite Hshift.
  destruct (finditer pattern (drop a text)) as [|m' ms'] eqn:E.
  { by rewrite Hm in Hshift. }
  rewrite chapters_of_shift by (simpl in Ha; lia). done.
Qed.

Lemma split_drops_text_before_first_heading_witness :
  split_into_chapters test_normal_case
  = split_into_chapters (drop 9 test_normal_case).
Proof.
  apply (split_drops_text_before_first_heading test_normal_case (9, 21) [(47, 59)]).
  vm_compute. reflexivity.
Defined.

(** ** [merge_character_data]: what an entry holds *)

Lemma lookup_merge_records_named n cl :
  OD.lookup n (merge_character_data cl) =
    match records_named n cl with
    | [] => None
    | c :: cs => Some (foldl (λ m c, absorb c m) (seed c) cs)
    end.
Proof. apply lookup_merge_character_data. Qed.

Lemma foldl_absorb_counts cs : ∀ m,
  appearances (foldl (λ m c, absorb c m) m cs)
  = (appearances m + Z.of_nat (length cs))%Z
  ∧ chapters (foldl (λ m c, absorb c m) m cs)
    = chapters m ++ (first_appearance <$> cs).
Proof.
  induction cs as [|c cs IH]; intros m; cbn [foldl].
  - split; [simpl; lia|by rewrite app_nil_r].
  - destruct (IH (absorb c m)) as [-> ->].
    assert (appearances (absorb c m) = (appearances m + 1)%Z) as -> by done.
    assert (chapters (absorb c m) = chapters m ++ [first_appearance c]) as ->
      by done.
    cbn [length fmap list_fmap].
    split; [lia|by rewrite <- app_assoc].
Qed.

(** The entry of a name counts the records of that name: [appearances] is
    their number and [chapters] lists their [first_appearance] values (the
    empty string for a record without one) in the order of the scan. *)
Theorem merged_appearances_and_chapters cl n m :
  OD.lookup n (merge_character_data cl) = Some m →
  appearances m = Z.of_nat (length (records_named n cl))
  ∧ chapters m = first_appearance <$> records_named n cl
  ∧ (1 ≤ appearances m)%Z
  ∧ Z.of_nat (length (chapters m)) = appearances m.
Proof.
  rewrite lookup_merge_records_named.
  destruct (records_named n cl) as [|c cs]; [done|]. intros [= <-].
  destruct (foldl_absorb_counts cs (seed c)) as [Ha Hc].
  rewrite Ha, Hc. cbn [seed appearances chapters length fmap list_fmap app].
  rewrite length_fmap. split_and!; [lia|done|lia|lia].
Qed.

Lemma merged_appearances_and_chapters_witness :
  ∃ m, OD.lookup (u "b")
         (merge_character_data [[rec_b; rec_xy]; [rec_xyz; rec_b]]) = Some m
       ∧ appearances m = 2%Z ∧ chapters m = [u "ch1"; u "ch1"].
Proof.
  destruct (OD.lookup (u "b")
              (merge_character_data [[rec_b; rec_xy]; [rec_xyz; rec_b]]))
    as [m|] eqn:E; [|vm_compute in E; discriminate].
  exists m. split; [done|].
  destruct (merged_appearances_and_chapters _ _ _ E) as (-> & -> & _).
  split; vm_compute; reflexivity.
Defined.

Lemma foldl_absorb_field field cs : field ∈ FIELDS → ∀ m,
  let v := fields (foldl (λ m c, absorb c m) m cs) !! field in
  length (default [] (fields m !! field)) ≤ length (default [] v)
  ∧ (∀ c, c ∈ cs → length (default [] (c !! field)) ≤ length (default [] v))
  ∧ (v = fields m !! field ∨ ∃ c, c ∈ cs ∧ v = c !! field).
Proof.
  intros Hf. induction cs as [|c cs IH]; intros m; cbn [foldl]; cbv zeta.
  - split_and!; [done|by intros c ?%elem_of_nil|by left].
  - destruct (IH (absorb c m)) as (Hle & Hall & Hv).
    rewrite absorb_field, pick_longer in Hle, Hv by done.
    split_and!.
    + case_decide; lia.
    + intros c' [->|Hc']%elem_of_cons; [|by apply Hall].
      case_decide; lia.
    + destruct Hv as [Hv|(c' & Hc' & Hv)].
      * case_decide; [right; exists c; split; [apply list_elem_of_here|done]
                     |by left].
      * right. exists c'. split; [by apply list_elem_of_further|done].
Qed.

(** Each descriptive field of an entry holds the value of one of the
    records of its name, and no record of that name has a longer value for
    the field (a missing value counting as the empty string). *)
Theorem merged_field_is_a_longest_candidate cl n m field :
  OD.lookup n (merge_character_data cl) = Some m →
  field ∈ FIELDS →
  (∃ c, c ∈ records_named n cl ∧ fields m !! field = c !! field)
  ∧ (∀ c, c ∈ records_named n cl →
       length (default [] (c !! field))
       ≤ length (default [] (fields m !! field))).
Proof.
  rewrite lookup_merge_records_named.
  destruct (records_named n cl) as [|c cs]; [done|]. intros [= <-] Hf.
  destruct (foldl_absorb_field field cs Hf (seed c)) as (Hle & Hall & Hv).
  rewrite seed_field in Hle, Hv by done. split.
  - destruct Hv as [Hv|(c' & Hc' & Hv)].
    + exists c. split; [apply list_elem_of_here|done].
    + exists c'. split; [by apply list_elem_of_further|done].
  - intros c' [->|Hc']%elem_of_cons; [done|by apply Hall].
Qed.

Lemma merged_field_is_a_longest_candidate_witness :
  ∃ m, OD.lookup (u "a")
         (merge_character_data [[rec_b; rec_xy]; [rec_xyz; rec_b]]) = Some m
       ∧ 3 ≤ length (default [] (fields m !! u "personality")).
Proof.
  destruct (OD.lookup (u "a")
              (merge_character_data [[rec_b; rec_xy]; [rec_xyz; rec_b]]))
    as [m|] eqn:E; [|vm_compute in E; discriminate].
  exists m. split; [done|].
  destruct (merged_field_is_a_longest_candidate _ _ _ (u "personality") E)
    as (_ & Hall); [by compute_dec|].
  apply (Hall rec_xyz). vm_compute. apply list_elem_of_further, list_elem_of_here.
Defined.

Lemma absorb_other_key c m k :
  k ∉ FIELDS → fields (absorb c m) !! k = fields m !! k.
Proof.
  intros Hk. unfold absorb. cbn [fields].
  rewrite foldl_merge_field_lookup by apply NoDup_FIELDS.
  by rewrite decide_False.
Qed.

Lemma foldl_absorb_other_key k cs : k ∉ FIELDS → ∀ m,
  fields (foldl (λ m c, absorb c m) m cs) !! k = fields m !! k.
Proof.
  intros Hk. induction cs as [|c cs IH]; intros m; cbn [foldl]; [done|].
  by rewrite IH, absorb_other_key.
Qed.

(** Every key of an entry other than the four descriptive fields is as the
    first record of the name has it; the two computed keys apart.  So the
    entry keeps the ['first_appearance'] of the first record, and its
    ['name'] is the key it is stored under. *)
Theorem merged_other_keys_from_first_record cl n m :
  OD.lookup n (merge_character_data cl) = Some m →
  ∃ c, head (records_named n cl) = Some c
    ∧ fields m !! u "name" = Some n ∧ n ≠ []
    ∧ fields m !! u "first_appearance" = c !! u "first_appearance"
    ∧ ∀ k, k ∉ FIELDS → k ≠ u "appearances" → k ≠ u "chapters" →
        fields m !! k = c !! k.
Proof.
  rewrite lookup_merge_records_named.
  destruct (records_named n cl) as [|c cs] eqn:E; [done|]. intros [= <-].
  assert (∀ k, k ∉ FIELDS → k ≠ u "appearances" → k ≠ u "chapters" →
            fields (foldl (λ m c, absorb c m) (seed c) cs) !! k = c !! k) as Hk.
  { intros k ? ? ?. rewrite foldl_absorb_other_key by done.
    unfold seed. cbn [fields]. by rewrite !lookup_delete_ne. }
  assert (name_of c = Some n) as [Hn ?]%name_of_Some.
  { assert (c ∈ records_named n cl) as Hin by (rewrite E; apply list_elem_of_here).
    by apply list_elem_of_filter in Hin as [? _]. }
  exists c. split_and!; [done| |done| |done].
  - rewrite Hk, Hn; [done|by compute_dec|by vm_compute..].
  - apply Hk; [by compute_dec|by vm_compute..].
Qed.

Lemma merged_other_keys_from_first_record_witness :
  ∃ m, OD.lookup (u "b")
         (merge_character_data [[rec_b; rec_xy]; [rec_xyz; rec_b]]) = Some m
       ∧ fields m !! u "name" = Some (u "b").
Proof.
  destruct (OD.lookup (u "b")
              (merge_character_data [[rec_b; rec_xy]; [rec_xyz; rec_b]]))
    as [m|] eqn:E; [|vm_compute in E; discriminate].
  exists m. split; [done|].
  by destruct (merged_other_keys_from_first_record _ _ _ E) as (c & _ & -> & _).
Defined.

(** ** [merge_character_data]: more chapters, and the total count *)

Lemma merge_character_data_app cl1 cl2 :
  merge_character_data (cl1 ++ cl2)
  = foldl merge_record (merge_character_data cl1) (concat cl2).
Proof. by rewrite !merge_character_data_concat, concat_app, foldl_app. Qed.

(** Merging further chapters keeps what is there: the keys so far stay at
    the front in their order, and for each of them [appearances] does not
    go down, [chapters] is only extended and no descriptive field gets
    shorter. *)
Theorem merge_further_chapters_extends cl1 cl2 :
  OD.keys (merge_character_data cl1)
    `prefix_of` OD.keys (merge_character_data (cl1 ++ cl2))
  ∧ ∀ n m1, OD.lookup n (merge_character_data cl1) = Some m1 →
      ∃ m2, OD.lookup n (merge_character_data (cl1 ++ cl2)) = Some m2
        ∧ (appearances m1 ≤ appearances m2)%Z
        ∧ chapters m1 `prefix_of` chapters m2
        ∧ ∀ field, field ∈ FIELDS →
            length (default [] (fields m1 !! field))
            ≤ length (default [] (fields m2 !! field)).
Proof.
  rewrite merge_character_data_app. split.
  - rewrite keys_foldl_merge_record. by eexists.
  - intros n m1 Hm1. rewrite lookup_foldl_merge_record, Hm1.
    eexists. split; [done|].
    set (cs := filter _ (concat cl2)).
    destruct (foldl_absorb_counts cs m1) as [-> ->].
    split_and!; [lia|by eexists|].
    intros field Hf. by destruct (foldl_absorb_field field cs Hf m1) as (? & _).
Qed.

Lemma merge_further_chapters_extends_witness :
  [u "b"; u "a"]
    `prefix_of` OD.keys (merge_character_data ([[rec_b; rec_xy]] ++ [[rec_xyz]])).
Proof.
  destruct (merge_further_chapters_extends [[rec_b; rec_xy]] [[rec_xyz]])
    as [H _].
  vm_compute in H. vm_compute. exact H.
Defined.

Lemma total_appearances_app d1 d2 :
  total_appearances (d1 ++ d2)
  = (total_appearances d1 + total_appearances d2)%Z.
Proof.
  unfold total_appearances. induction d1 as [|e d1 IH]; [done|].
  cbn [app fmap list_fmap foldr] in *. rewrite IH. lia.
Qed.

Lemma total_appearances_alter f n d m :
  OD.lookup n d = Some m →
  total_appearances (OD.alter f n d)
  = (total_appearances d - appearances m + appearances (f m))%Z.
Proof.
  unfold total_appearances. induction d as [|[k v] d IH]; [done|].
  cbn [OD.lookup OD.alter]. destruct (bool_decide (k = n)).
  - intros [= ->]. cbn [fmap list_fmap foldr snd]. lia.
  - intros H. cbn [fmap list_fmap foldr snd]. rewrite (IH H). lia.
Qed.

Lemma total_appearances_merge_record merged c :
  total_appearances (merge_record merged c)
  = (total_appearances merged
     + match name_of c with Some _ => 1 | None => 0 end)%Z.
Proof.
  rewrite merge_record_name_of. destruct (name_of c) as [n|]; [|lia].
  destruct (OD.lookup n merged) as [m|] eqn:E.
  - rewrite (total_appearances_alter _ _ _ _ E).
    assert (appearances (absorb c m) = (appearances m + 1)%Z) as -> by done.
    lia.
  - rewrite total_appearances_app. unfold total_appearances at 2.
    cbn [fmap list_fmap foldr snd seed appearances]. lia.
Qed.

Lemma total_appearances_foldl rs : ∀ merged,
  total_appearances (foldl merge_record merged rs)
  = (total_appearances merged
     + Z.of_nat (length (filter (λ c, is_Some (name_of c)) rs)))%Z.
Proof.
  induction rs as [|c rs IH]; intros merged; cbn [foldl]; [simpl; lia|].
  rewrite IH, total_appearances_merge_record, filter_cons.
  destruct (name_of c) as [n|].
  - rewrite decide_True by by eexists. cbn [length]. lia.
  - rewrite decide_False by by intros [? ?]. lia.
Qed.

(** Every record with a non-empty name is counted once and only once: the
    [appearances] of all entries add up to the number of such records, and
    there are at most that many entries. *)
Theorem merge_counts_every_named_record_once cl :
  total_appearances (merge_character_data cl)
  = Z.of_nat (length (filter (λ c, is_Some (name_of c)) (concat cl)))
  ∧ length (merge_character_data cl)
    ≤ length (filter (λ c, is_Some (name_of c)) (concat cl)).
Proof.
  split.
  - rewrite merge_character_data_concat, total_appearances_foldl.
    unfold total_appearances. simpl. lia.
  - assert (length (merge_character_data cl)
            = length (OD.keys (merge_character_data cl))) as ->
      by (unfold OD.keys; by rewrite length_fmap).
    rewrite keys_merge_character_data.
    assert (∀ l : list (list N), length (first_seen l) ≤ length l) as Hfs.
    { induction l as [|x l IH]; [done|]. cbn [first_seen length].
      pose proof (length_filter (λ y, y ≠ x) (first_seen l)). lia. }
    etrans; [apply Hfs|].
    induction (concat cl) as [|c rs IH]; [done|].
    cbn [omap list_omap]. rewrite filter_cons. fold (omap name_of rs).
    destruct (name_of c) as [n|].
    + rewrite decide_True by by eexists. cbn [length]. lia.
    + rewrite decide_False by by intros [? ?]. done.
Qed.

(** ** [_call_model_api]: the result and the cost of a call *)

Lemma judge_Return r data :
  Api.judge r = Api.Return data ↔ r = Api.Response 200 (Some data) ∧ accepted data.
Proof.
  split.
  - destruct r as [| |status body]; try done. cbn [Api.judge].
    case_bool_decide as Hs; [done|].
    assert (status = 200%Z) as -> by (by destruct (decide (status = 200%Z))).
    destruct body as [[| | | | |members]|]; try done.
    destruct (Api.obj_get _ _) as [message|] eqn:Hm; [|done].
    destruct (Api.has_content message) as [[]|] eqn:Hc; try done.
    intros [= <-]. split; [done|]. by exists members, message.
  - intros [-> (members & message & -> & Hm & Hc)]. cbn [Api.judge].
    rewrite bool_decide_eq_false_2 by (by intros ?). by rewrite Hm, Hc.
Qed.

Lemma judge_Continue r : Api.judge r = Api.Continue ↔ Api.soft_failure r.
Proof.
  split; [|apply judge_soft_failure].
  destruct r as [| |status body]; try done. cbn [Api.judge].
  case_bool_decide as Hs; [intros _; by apply Api.sf_status|].
  assert (status = 200%Z) as -> by (by destruct (decide (status = 200%Z))).
  destruct body as [v|]; [|intros _; apply Api.sf_malformed].
  destruct v as [| | | | |members];
    try (intros _; by apply Api.sf_not_dict).
  destruct (Api.obj_get _ _) as [message|] eqn:Hm;
    [|intros _; by apply Api.sf_no_message].
  destruct (Api.has_content message) as [[]|] eqn:Hc; try done.
  intros _. by eapply Api.sf_no_content.
Qed.

Lemma attempts_result server max_retries retry_delay n : ∀ a data,
  (0 ≤ retry_delay)%Z →
  (Api.attempts server max_retries retry_delay a n).1
    = Api.Returned (Some data) ↔
  ∃ i, (a ≤ i ∧ i < a + n) ∧ Api.judge (server i) = Api.Return data
       ∧ ∀ j, a ≤ j → j < i →
           Api.judge (server j) = Api.Continue
           ∨ Api.judge (server j) = Api.TimedOut.
Proof.
  induction n as [|n IH]; intros a data Hd.
  { split; [done|]. intros (i & ? & _). lia. }
  assert (∀ Hgo : Api.judge (server a) = Api.Continue
                  ∨ Api.judge (server a) = Api.TimedOut,
            (Api.attempts server max_retries retry_delay (S a) n).1
              = Api.Returned (Some data) ↔
            ∃ i, (a ≤ i ∧ i < a + S n) ∧ Api.judge (server i) = Api.Return data
                 ∧ ∀ j, a ≤ j → j < i →
                     Api.judge (server j) = Api.Continue
                     ∨ Api.judge (server j) = Api.TimedOut) as Hrest.
  { intros Hgo. rewrite (IH (S a) data Hd). split.
    - intros (i & ? & Hi & Hbefore). exists i. split; [lia|]. split; [done|].
      intros j ? ?. destruct (decide (j = a)) as [->|]; [done|].
      apply Hbefore; lia.
    - intros (i & ? & Hi & Hbefore).
      assert (i ≠ a) by (intros ->; destruct Hgo; congruence).
      exists i. split; [lia|]. split; [done|].
      intros j ? ?. apply Hbefore; lia. }
  destruct (attempts_cases server max_retries retry_delay a n)
    as [[[[Hj Hr]|(data' & Hj & Hr)] _]
       |[(Hj & _ & Hr)|[(Hj & _ & _ & _ & Hr)|(_ & _ & ? & _)]]];
    [| | | |lia]; rewrite Hr.
  - split; [done|]. intros (i & ? & Hi & Hbefore).
    destruct (decide (i = a)) as [->|]; [congruence|].
    destruct (Hbefore a); [lia..|congruence|congruence].
  - split.
    + intros [= ->]. exists a. split; [lia|]. split; [done|]. intros j ? ?; lia.
    + intros (i & ? & Hi & Hbefore).
      destruct (decide (i = a)) as [->|]; [congruence|].
      destruct (Hbefore a); [lia..|congruence|congruence].
  - apply Hrest. destruct Hj as [?|[? _]]; [by left|by right].
  - apply Hrest. by right.
Qed.

(** A call returns the first response of the service that is accepted (an
    object with a ['message'] in which ['content'] is found, sent with
    status 200), provided every attempt before it timed out or failed with
    a bad status, a body that is not JSON or a body of the wrong form, and
    at most [max_retries] attempts are needed; it returns [None] in every
    other case. *)
Theorem call_returns_first_accepted_response server max_retries retry_delay data :
  (0 ≤ retry_delay)%Z →
  (Api.call_model_api server max_retries retry_delay).1
    = Api.Returned (Some data) ↔
  ∃ i, i < max_retries
    ∧ server i = Api.Response 200 (Some data) ∧ accepted data
    ∧ ∀ j, j < i → server j = Api.Timeout ∨ Api.soft_failure (server j).
Proof.
  intros Hd. unfold Api.call_model_api. rewrite attempts_result by done. split.
  - intros (i & ? & [? ?]%judge_Return & Hbefore).
    exists i. split_and!; [lia|done..|].
    intros j ?. destruct (Hbefore j) as [?%judge_Continue|?%judge_timeout];
      [lia..|by right|by left].
  - intros (i & ? & ? & ? & Hbefore).
    exists i. split; [lia|]. split; [by apply judge_Return|].
    intros j ? ?. destruct (Hbefore j) as [?%judge_timeout|?%judge_Continue];
      [lia|by right|by left].
Qed.

Lemma call_returns_first_accepted_response_witness :
  (Api.call_model_api Api.server_500_then_ok Api.MAX_RETRIES Api.RETRY_DELAY).1
  = Api.Returned (Some Api.ok_body).
Proof.
  apply call_returns_first_accepted_response; [by vm_compute|]. exists 1.
  split; [unfold Api.MAX_RETRIES; lia|]. split; [done|]. split.
  - eexists _, _. split; [done|]. split; vm_compute; reflexivity.
  - intros j Hj. assert (j = 0) as -> by lia. right. by apply Api.sf_status.
Defined.

Lemma attempts_budget server max_retries retry_delay n : ∀ a,
  a + n = max_retries → (0 ≤ retry_delay)%Z →
  let t := (Api.attempts server max_retries retry_delay a n).2 in
  requests t ≤ n
  ∧ (0 ≤ slept t ≤ Z.of_nat (pred n) * retry_delay)%Z.
Proof.
  induction n as [|n IH]; intros a Hmax Hd; cbv zeta.
  { cbn [Api.attempts snd requests slept]. lia. }
  destruct (IH (S a)) as (Hr & Hs); [lia|done|].
  destruct (attempts_cases server max_retries retry_delay a n)
    as [[_ ->]|[(_ & -> & _)|[(_ & Ha & _ & -> & _)|(_ & _ & ? & _)]]];
    [| | |lia]; cbn [requests slept].
  - nia.
  - split; [lia|]. destruct n; [|nia].
    cbn [Api.attempts snd slept] in *. lia.
  - split; [lia|]. destruct n as [|n]; [lia|].
    cbn [pred] in *. nia.
Qed.

Lemma attempts_all_timeout server max_retries retry_delay n : ∀ a,
  a + n = max_retries → (0 ≤ retry_delay)%Z →
  (∀ i, i < max_retries → server i = Api.Timeout) →
  Api.attempts server max_retries retry_delay a n
  = (Api.Returned None,
     flat_map (λ i, if bool_decide (i < max_retries - 1)
                    then [Api.Post i; Api.Sleep retry_delay]
                    else [Api.Post i]) (seq a n)).
Proof.
  induction n as [|n IH]; intros a Hmax Hd Hall; [done|].
  cbn [Api.attempts]. rewrite (Hall a) by lia. cbn [Api.judge].
  rewrite (IH (S a)) by (done || lia). cbn [seq flat_map].
  rewrite (bool_decide_eq_false_2 (retry_delay < 0)%Z) by lia.
  by case_bool_decide.
Qed.

(** A call sends at most [max_retries] requests and, for a delay that is
    not negative, sleeps at most [max_retries - 1] times the delay in all.
    A service that times out on every attempt costs exactly that: each
    attempt but the last is followed by the delay, and the call returns
    [None]. *)
Theorem call_budget server max_retries retry_delay :
  (0 ≤ retry_delay)%Z →
  let t := (Api.call_model_api server max_retries retry_delay).2 in
  requests t ≤ max_retries
  ∧ (0 ≤ slept t ≤ Z.of_nat (max_retries - 1) * retry_delay)%Z
  ∧ ((∀ i, i < max_retries → server i = Api.Timeout) →
       Api.call_model_api server max_retries retry_delay
       = (Api.Returned None,
          flat_map (λ i, if bool_decide (i < max_retries - 1)
                         then [Api.Post i; Api.Sleep retry_delay]
                         else [Api.Post i]) (seq 0 max_retries))).
Proof.
  intros Hd. cbv zeta. unfold Api.call_model_api.
  destruct (attempts_budget server max_retries retry_delay max_retries 0)
    as [Hr Hs]; [done..|].
  split; [done|]. split.
  - by replace (max_retries - 1) with (pred max_retries) by lia.
  - intros Hall. by apply attempts_all_timeout.
Qed.

Lemma call_budget_witness :
  Api.call_model_api (λ _, Api.Timeout) Api.MAX_RETRIES Api.RETRY_DELAY
  = (Api.Returned None,
     [Api.Post 0; Api.Sleep 30; Api.Post 1; Api.Sleep 30; Api.Post 2])
  ∧ slept (Api.call_model_api (λ _, Api.Timeout)
             Api.MAX_RETRIES Api.RETRY_DELAY).2 = 60%Z.
Proof.
  destruct (call_budget (λ _, Api.Timeout) Api.MAX_RETRIES Api.RETRY_DELAY)
    as (_ & _ & H); [by vm_compute|].
  rewrite H by done. split; vm_compute; reflexivity.
Defined.

(** ** [extract_character_info] *)

Lemma parse_characters_usable loads response characters :
  parse_characters loads response = Some characters
  ↔ usable_response loads response characters.
Proof.
  unfold parse_characters, message_content, usable_response. split.
  - destruct response as [| | | | |members]; try done.
    destruct (Api.obj_get (u "message") members) as [[| | | | |message]|] eqn:Hm;
      try done.
    destruct (Api.obj_get (u "content") message) as [[| | |content| |]|] eqn:Hc;
      try done.
    destruct (loads content) as [[| | | | |data]|] eqn:Hl; try done.
    destruct (Api.obj_get (u "characters") data) as [v|] eqn:Hv; [|done].
    intros Heq. exists members, message, content, data.
    split_and!; try done; destruct v; by simplify_eq.
  - intros (members & message & content & data & -> & -> & -> & -> & -> & Hv).
    by destruct characters.
Qed.

Lemma usable_response_accepted loads response characters :
  usable_response loads response characters →
  accepted response ∧ truthy response = true.
Proof.
  intros (members & message & content & data & -> & Hm & Hc & _). split.
  - exists members, (Api.JObj message). split_and!; [done..|].
    cbn [Api.has_content]. by rewrite Hc.
  - by destruct members.
Qed.

(** The extraction yields [characters] exactly when the first response of
    the service that [_call_model_api] accepts comes within [max_retries]
    attempts, after attempts that timed out or failed softly only, and is
    usable: its message is an object whose content is a string that parses
    to an object holding [characters], not [null].  A first accepted
    response that is not usable ends the extraction with [None]; no further
    request is made for it. *)
Theorem extract_character_info_success
    server loads max_retries retry_delay max_text_length text characters :
  (0 ≤ retry_delay)%Z →
  (extract_character_info server loads max_retries retry_delay
     max_text_length text).1 = Api.Returned (Some characters)
  ↔ ∃ i response,
      i < max_retries
      ∧ server (prompt_of max_text_length text) i
        = Api.Response 200 (Some response)
      ∧ usable_response loads response characters
      ∧ ∀ j, j < i →
          server (prompt_of max_text_length text) j = Api.Timeout
          ∨ Api.soft_failure (server (prompt_of max_text_length text) j).
Proof.
  intros Hd. unfold extract_character_info. cbn [fst]. split.
  - destruct (Api.call_model_api _ _ _).1 as [[response|]|] eqn:Hcall;
      [|done..].
    destruct (truthy response); [|done]. cbn [negb].
    intros [= Hu%parse_characters_usable].
    apply call_returns_first_accepted_response in Hcall
      as (i & ? & ? & _ & Hbefore); [|done].
    by exists i, response.
  - intros (i & response & Hi & Hr & Hu & Hbefore).
    destruct (usable_response_accepted _ _ _ Hu) as [Hacc Ht].
    assert ((Api.call_model_api (server (prompt_of max_text_length text))
               max_retries retry_delay).1 = Api.Returned (Some response)) as ->.
    { apply call_returns_first_accepted_response; [done|]. by exists i. }
    rewrite Ht. cbn [negb]. f_equal. by apply parse_characters_usable.
Qed.



Lemma extract_character_info_success_witness :
  (extract_character_info (λ _, Api.server_500_then_ok) loads_demo
     Api.MAX_RETRIES Api.RETRY_DELAY MAX_TEXT_LENGTH (u "abc")).1
  = Api.Returned (Some (Api.JArr [Api.JObj []])).
Proof.
  apply extract_character_info_success; [by vm_compute|].
  exists 1, Api.ok_body.
  split; [unfold Api.MAX_RETRIES; lia|]. split; [done|]. split.
  - eexists _, _, _, _. split; [done|].
    split; [vm_compute; reflexivity|]. split; [vm_compute; reflexivity|].
    split; [done|]. split; [vm_compute; reflexivity|done].
  - intros j Hj. assert (j = 0) as -> by lia. right. by apply Api.sf_status.
Defined.

(** ** [process_novel] *)

Lemma foldl_analyse_step extract chaps : ∀ state,
  foldl (analyse_step extract) state chaps
  = (state.1 ++ omap (usable extract) chaps,
     (state.2 + (Z.of_nat (length chaps)
                 - Z.of_nat (length (omap (usable extract) chaps))))%Z).
Proof.
  induction chaps as [|ch chaps IH]; intros [all failed]; cbn [foldl fst snd].
  - rewrite app_nil_r. f_equal. simpl. lia.
  - rewrite IH. unfold analyse_step, usable. cbn [omap list_omap fst snd].
    fold (omap (usable extract) chaps).
    destruct (extract (content ch)) as [[|c cs]|]; cbn [fst snd length].
    + f_equal. lia.
    + rewrite <- app_assoc. f_equal. cbn [length]. lia.
    + f_equal. lia.
Qed.

(** The loop keeps the records of the chapters whose extraction returned at
    least one record, in the order of the chapters, and counts every other
    chapter as failed: also a chapter for which the service returned an
    empty list of characters.  Failed and kept chapters add up to all. *)
Theorem analyse_counts extract chaps :
  (analyse extract chaps).1 = omap (usable extract) chaps
  ∧ (analyse extract chaps).2
    = Z.of_nat (length (filter (λ ch, usable extract ch = None) chaps))
  ∧ ((analyse extract chaps).2 + Z.of_nat (length (analyse extract chaps).1)
     = Z.of_nat (length chaps))%Z
  ∧ (0 ≤ (analyse extract chaps).2 ≤ Z.of_nat (length chaps))%Z
  ∧ (∀ ch, ch ∈ chaps → extract (content ch) = Some [] →
       (1 ≤ (analyse extract chaps).2)%Z).
Proof.
  unfold analyse. rewrite foldl_analyse_step. cbn [fst snd app].
  assert (length (omap (usable extract) chaps)
          + length (filter (λ ch, usable extract ch = None) chaps)
          = length chaps) as Hlen.
  { induction chaps as [|ch chaps IH]; [done|].
    cbn [omap list_omap]. rewrite filter_cons. fold (omap (usable extract) chaps).
    destruct (usable extract ch); [rewrite decide_False by done|rewrite decide_True by done];
      cbn [length]; lia. }
  split_and!; [done|lia..|].
  intros ch Hin Hch.
  assert (ch ∈ filter (λ ch, usable extract ch = None) chaps) as Hf.
  { apply list_elem_of_filter. split; [|done]. unfold usable. by rewrite Hch. }
  destruct (filter _ chaps); [by apply elem_of_nil in Hf|]. cbn [length] in Hlen. lia.
Qed.

Lemma analyse_counts_witness :
  (1 ≤ (analyse (λ _, Some []) [mkChapter (u "t") (u "c")]).2)%Z.
Proof.
  destruct (analyse_counts (λ _, Some []) [mkChapter (u "t") (u "c")])
    as (_ & _ & _ & _ & H).
  apply (H (mkChapter (u "t") (u "c"))); [apply list_elem_of_here|done].
Defined.


